(** * Figurinify downloader: the link resolver, the URL normalizer and the
    download progress of [main.py], embedded and verified.

    Python's [str] is a sequence of Unicode code points; it is modelled as a
    list of code points, each an [N].  Exceptions are values of [outcome];
    the network and the log are a trace of events threaded through the
    resolver.  Library functions whose data tables are not part of the
    program (HTML entity names, NFKC normalisation, IPv6 literals, relative
    URL joining) are fields of [PyLib] and every theorem holds for all of
    them. *)

From Stdlib Require Import String Ascii List NArith ZArith Lia Bool.
Import ListNotations.

Set Implicit Arguments.

(* ================================================================= *)
(** ** Strings *)

Definition char := N.
Definition str := list char.

Definition ch (a : ascii) : char := N_of_ascii a.
Definition ustr (s : string) : str := map N_of_ascii (list_ascii_of_string s).
Arguments ch a%_char.
Arguments ustr s%_string.

(** The double quote, written by its code point. *)
Definition dquote : char := 34%N.
Definition squote : char := 39%N.
Definition backslash : char := 92%N.

Definition char_eqb (a b : char) : bool := N.eqb a b.

Fixpoint str_eqb (a b : str) : bool :=
  match a, b with
  | [], [] => true
  | x :: a', y :: b' => char_eqb x y && str_eqb a' b'
  | _, _ => false
  end.

(** [str.isspace] for one code point, as CPython's [_PyUnicode_IsWhitespace]
    lists them; the regular expression class [\s] of a [str] pattern is the
    same set. *)
Definition isspace (c : char) : bool :=
  ((0x09 <=? c) && (c <=? 0x0D) || (0x1C <=? c) && (c <=? 0x20)
   || (c =? 0x85) || (c =? 0xA0) || (c =? 0x1680)
   || (0x2000 <=? c) && (c <=? 0x200A)
   || (c =? 0x2028) || (c =? 0x2029) || (c =? 0x202F) || (c =? 0x205F)
   || (c =? 0x3000))%N.

Fixpoint lstrip (s : str) : str :=
  match s with
  | c :: s' => if isspace c then lstrip s' else s
  | [] => []
  end.

Definition rstrip (s : str) : str := rev (lstrip (rev s)).

(** [s.strip()] *)
Definition strip (s : str) : str := rstrip (lstrip s).

(** [s.startswith(p)] *)
Fixpoint startswith (s p : str) : bool :=
  match p, s with
  | [], _ => true
  | a :: p', b :: s' => char_eqb a b && startswith s' p'
  | _ :: _, [] => false
  end.

(** [s.endswith(p)] *)
Definition endswith (s p : str) : bool := startswith (rev s) (rev p).

(** [c in s] for a one-character [c]. *)
Definition contains (c : char) (s : str) : bool := existsb (char_eqb c) s.

Definition is_upper_ascii (c : char) : bool := ((0x41 <=? c) && (c <=? 0x5A))%N.

Definition lower_char (c : char) : char :=
  if is_upper_ascii c then (c + 32)%N else c.

(** [s.lower()].  Code points outside [A-Z] are left as they are: the
    program only compares the lowered text with [.glb] and splits it at [?],
    and [str.lower] maps no code point outside [A-Z] to a string holding one
    of the characters [. g l b ?]. *)
Definition lower (s : str) : str := map lower_char s.

(** [s.split(c)[0]]: the text before the first [c], all of [s] without one. *)
Fixpoint before_first (c : char) (s : str) : str :=
  match s with
  | [] => []
  | x :: s' => if char_eqb x c then [] else x :: before_first c s'
  end.

(** The text after the first [c]; [None] when [c] does not occur. *)
Fixpoint after_first (c : char) (s : str) : option str :=
  match s with
  | [] => None
  | x :: s' => if char_eqb x c then Some s' else after_first c s'
  end.

(** [s.replace(old, new)] for a non-empty [old] (every use in the program):
    leftmost occurrences, not overlapping.  [skip] counts the characters of
    an occurrence still to be passed over. *)
Fixpoint replace_from (old new : str) (skip : nat) (s : str) : str :=
  match s with
  | [] => []
  | c :: s' =>
      match skip with
      | S k => replace_from old new k s'
      | O =>
          if startswith s old
          then new ++ replace_from old new (length old - 1) s'
          else c :: replace_from old new O s'
      end
  end.

Definition replace (old new s : str) : str := replace_from old new 0 s.

(* ================================================================= *)
(** ** Exceptions *)

Inductive exn :=
| ValueError (msg : str)
| OverflowError
| HTTPError (status : N)
| Timeout
| ConnectionError.

Inductive outcome (A : Type) :=
| Return (a : A)
| Raise (e : exn).
Arguments Return {A} a.
Arguments Raise {A} e.

Definition obind {A B} (m : outcome A) (f : A -> outcome B) : outcome B :=
  match m with
  | Return a => f a
  | Raise e => Raise e
  end.

(** [try: body except Exception: handler] *)
Definition try_except {A} (body : outcome A) (handler : exn -> outcome A) : outcome A :=
  match body with
  | Return a => Return a
  | Raise e => handler e
  end.

(* ================================================================= *)
(** ** Regular expressions: the backtracking matcher of [re]

    Only the constructs the program's patterns use.  A repetition [+] or
    [+?] is over a one-character class, as in every pattern of the program. *)

Inductive regex :=
| Eps
| Chr (p : char -> bool)
| Seq (r1 r2 : regex)
| Alt (r1 r2 : regex)
| Opt (r : regex)
| Plus (greedy : bool) (p : char -> bool)
| Rep (n : nat) (r : regex)
| NotAhead (r : regex).

Fixpoint plus_lazy {A} (p : char -> bool) (s : str) (k : str -> option A) : option A :=
  match s with
  | c :: s' =>
      if p c then
        match k s' with
        | Some a => Some a
        | None => plus_lazy p s' k
        end
      else None
  | [] => None
  end.

Fixpoint plus_greedy {A} (p : char -> bool) (s : str) (k : str -> option A) : option A :=
  match s with
  | c :: s' =>
      if p c then
        match plus_greedy p s' k with
        | Some a => Some a
        | None => k s'
        end
      else None
  | [] => None
  end.

(** [bt r A s k]: match [r] at the start of [s], trying the alternatives in
    the order [re] tries them, and pass what is left to [k]; the first
    alternative that [k] accepts wins. *)
Fixpoint bt (r : regex) : forall A : Type, str -> (str -> option A) -> option A :=
  fun A s k =>
  match r with
  | Eps => k s
  | Chr p =>
      match s with
      | c :: s' => if p c then k s' else None
      | [] => None
      end
  | Seq r1 r2 => bt r1 s (fun s' => bt r2 s' k)
  | Alt r1 r2 =>
      match bt r1 s k with
      | Some a => Some a
      | None => bt r2 s k
      end
  | Opt r1 =>
      match bt r1 s k with
      | Some a => Some a
      | None => k s
      end
  | Plus true p => plus_greedy p s k
  | Plus false p => plus_lazy p s k
  | Rep n r1 =>
      (fix rep (n : nat) (s : str) : option A :=
         match n with
         | O => k s
         | S n' => bt r1 s (fun s' => rep n' s')
         end) n s
  | NotAhead r1 =>
      match bt r1 s (fun _ => Some tt) with
      | Some _ => None
      | None => k s
      end
  end.

(** A compiled pattern with its group 1: [before (group) after].  A
    pattern without a group has the whole match as its group. *)
Record pattern := { p_before : regex; p_group : regex; p_after : regex }.

Definition whole (r : regex) : pattern :=
  {| p_before := Eps; p_group := r; p_after := Eps |}.

(** The match starting at the first character of [s]: [(group(0), group(1))]. *)
Definition match_here (p : pattern) (s : str) : option (str * str) :=
  bt (p_before p) s (fun s1 =>
  bt (p_group p) s1 (fun s2 =>
  bt (p_after p) s2 (fun s3 =>
    Some (firstn (length s - length s3) s,
          firstn (length s1 - length s2) s1)))).

(** [re.findall(p, s)]: group 1 of the matches, left to right, not
    overlapping.  [skip] counts the characters of the last match still to be
    passed over.  (The patterns of the program match no empty string.) *)
Fixpoint findall_from (p : pattern) (skip : nat) (s : str) : list str :=
  match s with
  | [] => match match_here p [] with Some (_, g) => [g] | None => [] end
  | _ :: s' =>
      match skip with
      | S k => findall_from p k s'
      | O =>
          match match_here p s with
          | Some (w, g) => g :: findall_from p (length w - 1) s'
          | None => findall_from p O s'
          end
      end
  end.

Definition re_findall (p : pattern) (s : str) : list str := findall_from p 0 s.

(** [re.search(p, s)]: the leftmost match, as [(group(0), group(1))]. *)
Fixpoint re_search (p : pattern) (s : str) : option (str * str) :=
  match match_here p s with
  | Some m => Some m
  | None =>
      match s with
      | [] => None
      | _ :: s' => re_search p s'
      end
  end.

(** [re.sub(p, repl, s)] with a function [repl] of the match; an exception
    of [repl] ends the substitution. *)
Fixpoint sub_from (p : pattern) (repl : str * str -> outcome str) (skip : nat)
    (s : str) : outcome str :=
  match s with
  | [] => Return []
  | c :: s' =>
      match skip with
      | S k => sub_from p repl k s'
      | O =>
          match match_here p s with
          | Some (w, g) =>
              obind (repl (w, g)) (fun x =>
              obind (sub_from p repl (length w - 1) s') (fun t =>
              Return (x ++ t)))
          | None => obind (sub_from p repl O s') (fun t => Return (c :: t))
          end
      end
  end.

Definition re_sub (p : pattern) (repl : str * str -> outcome str) (s : str)
    : outcome str :=
  sub_from p repl 0 s.

(** Character classes and literals. *)
Definition lit (a : ascii) : regex := Chr (char_eqb (ch a)).

(** A lower-case letter under [re.IGNORECASE] in a [str] pattern: the
    characters whose lower case it is, and for [s] also U+017F (the long s),
    which [re] treats as the same letter. *)
Definition lit_i (a : ascii) : regex :=
  Chr (fun c => char_eqb (lower_char c) (ch a)
                || (char_eqb (ch a) (ch "s") && char_eqb c 0x17F%N)).

Fixpoint seq_of (rs : list regex) : regex :=
  match rs with
  | [] => Eps
  | [r] => r
  | r :: rs' => Seq r (seq_of rs')
  end.

(** A literal word under [re.IGNORECASE] (lower-case letters and signs). *)
Definition word_i (s : string) : regex := seq_of (map lit_i (list_ascii_of_string s)).
Arguments word_i s%_string.
Arguments lit a%_char.
Arguments lit_i a%_char.

Definition is_digit (c : char) : bool := ((0x30 <=? c) && (c <=? 0x39))%N.
Definition in_range (lo hi : ascii) (c : char) : bool := ((ch lo <=? c) && (c <=? ch hi))%N.
Arguments in_range lo%_char hi%_char c.

(** [[0-9a-fA-F]] *)
Definition is_hex (c : char) : bool :=
  is_digit c || in_range "a" "f" c || in_range "A" "F" c.

(** [[0-9a-f]] under [re.IGNORECASE]: [c] is in the class when its lower
    case is. *)
Definition is_hex_i (c : char) : bool :=
  is_digit (lower_char c) || in_range "a" "f" (lower_char c).

(** The class of the characters that are neither white space nor a single
    or double quote. *)
Definition not_space_quote (c : char) : bool :=
  negb (isspace c || char_eqb c dquote || char_eqb c squote).

(** The class of the characters that are no single or double quote. *)
Definition not_quote (c : char) : bool :=
  negb (char_eqb c dquote || char_eqb c squote).

Definition is_quote (c : char) : bool := char_eqb c dquote || char_eqb c squote.

(* ================================================================= *)
(** ** The library functions the program calls *)

(** What the embedding takes from Python's library as given:
    - [charref_sub s] is [html._charref.sub(_replace_charref, s)], the
      replacement of the character references of [s] (it needs the table
      of HTML5 entity names).  It can raise: [int] refuses a decimal
      reference of more digits than the interpreter's limit (4300) with a
      [ValueError];
    - [urljoin base url] is [urllib.parse.urljoin], which can raise
      [ValueError];
    - [check_bracketed_netloc nl] is the check of [urlsplit] on a netloc
      that holds both brackets ([_check_bracketed_host] on the host between
      them): [None] when the host passes, [Some msg] when the check raises
      [ValueError(msg)], which it does for an IPv4 address in brackets, for
      an invalid IPvFuture address and for what [ipaddress] does not
      accept, each with a message of its own;
    - [nfkc_netloc_ok] is the check of [urlsplit] on a host that is not
      ASCII ([true]: the check passes). *)
Record PyLib := {
  charref_sub : str -> outcome str;
  urljoin : str -> str -> outcome str;
  check_bracketed_netloc : str -> option str;
  nfkc_netloc_ok : str -> bool
}.

(** [urllib.parse] (CPython 3.12). *)
Record SplitResult := {
  sr_scheme : str; sr_netloc : str; sr_path : str; sr_query : str; sr_fragment : str
}.

Record ParseResult := {
  scheme : str; netloc : str; path : str; params : str; query : str; fragment : str
}.

Definition is_ascii_alpha (c : char) : bool :=
  in_range "a" "z" c || in_range "A" "Z" c.

(** [scheme_chars] *)
Definition is_scheme_char (c : char) : bool :=
  is_ascii_alpha c || is_digit c
  || char_eqb c (ch "+") || char_eqb c (ch "-") || char_eqb c (ch ".").

(** [_WHATWG_C0_CONTROL_OR_SPACE] *)
Definition c0_control_or_space (c : char) : bool := (c <=? 0x20)%N.

Fixpoint lstrip_chars (p : char -> bool) (s : str) : str :=
  match s with
  | c :: s' => if p c then lstrip_chars p s' else s
  | [] => []
  end.

(** [_UNSAFE_URL_BYTES_TO_REMOVE]: tab, carriage return, line feed. *)
Definition unsafe_url_char (c : char) : bool :=
  char_eqb c 0x09%N || char_eqb c 0x0D%N || char_eqb c 0x0A%N.

(** The longest prefix of characters satisfying [p], and the rest. *)
Fixpoint span (p : char -> bool) (s : str) : str * str :=
  match s with
  | c :: s' => if p c then let (a, b) := span p s' in (c :: a, b) else ([], s)
  | [] => ([], [])
  end.

Definition netloc_delim (c : char) : bool :=
  char_eqb c (ch "/") || char_eqb c (ch "?") || char_eqb c (ch "#").

Definition is_ascii (s : str) : bool := forallb (fun c => (c <? 0x80)%N) s.

Definition invalid_ipv6 : exn := ValueError (ustr "Invalid IPv6 URL").

Definition invalid_nfkc (n : str) : exn :=
  ValueError (ustr "netloc '" ++ n ++
              ustr "' contains invalid characters under NFKC normalization").

Definition uses_params : list str :=
  map ustr [""; "ftp"; "hdl"; "prospero"; "http"; "imap"; "https"; "shttp";
            "rtsp"; "rtspu"; "sip"; "sips"; "mms"; "sftp"; "tel"]%string.

(** [os.path.basename], taken as [posixpath.basename]: the text after the
    last [/]. *)
Definition basename (p : str) : str := rev (before_first (ch "/") (rev p)).

(* ================================================================= *)
(** ** The resolver's effects *)

(** What the resolver does to the outside, in order. *)
Inductive event :=
| EvLog (msg : str)
| EvGet (url : str).

(** A fetched page: [r.url] (after redirects) and [r.text]. *)
Record page := { r_url : str; r_text : str }.

(** The network: the answer to the [n]-th request of a resolution, a page
    or the exception that [requests.get] or [raise_for_status] raises. *)
Definition network := nat -> str -> outcome page.

Definition M (A : Type) := list event -> list event * outcome A.

Definition ret {A} (a : A) : M A := fun tr => (tr, Return a).

Definition bind {A B} (m : M A) (f : A -> M B) : M B :=
  fun tr =>
    match m tr with
    | (tr', Return a) => f a tr'
    | (tr', Raise e) => (tr', Raise e)
    end.

Definition lift {A} (o : outcome A) : M A := fun tr => (tr, o).

Definition log (msg : str) : M unit := fun tr => (tr ++ [EvLog msg], Return tt).

Definition is_get (e : event) : bool :=
  match e with EvGet _ => true | EvLog _ => false end.

Definition gets (tr : list event) : list event := filter is_get tr.

(** [requests.get(url, ...)] followed by [r.raise_for_status()]. *)
Definition fetch (net : network) (url : str) : M page :=
  fun tr => (tr ++ [EvGet url], net (length (gets tr)) url).

Declare Scope resolver_scope.
Delimit Scope resolver_scope with M.
Notation "x <- m ;; k" := (bind m (fun x => k))
  (at level 61, m at next level, right associativity) : resolver_scope.
Notation "m ;; k" := (bind m (fun _ => k))
  (at level 61, right associativity) : resolver_scope.

Declare Scope outcome_scope.
Delimit Scope outcome_scope with O.
Notation "x <- m ;; k" := (obind m (fun x => k))
  (at level 61, m at next level, right associativity) : outcome_scope.

(** [@dataclass class Resolved] *)
Record Resolved := { glb_url : str; filename : str }.

(* ================================================================= *)
(** ** The patterns of the program *)

Definition http_prefix : regex :=
  seq_of [word_i "http"; Opt (lit_i "s"); word_i "://"].

(** The tail shared by the three link patterns: [+?\.glb(?:\?+)?] over the
    class [p]. *)
Definition glb_tail (p : char -> bool) : regex :=
  seq_of [Plus false p; word_i ".glb"; Opt (Seq (lit_i "?") (Plus true p))].

(** The absolute link pattern of [scan_page_for_glb], with [re.IGNORECASE]. *)
Definition re_absolute : pattern :=
  whole (Seq http_prefix (glb_tail not_space_quote)).

(** The root-relative pattern: a slash, then the tail; one group around all. *)
Definition re_root_relative : pattern :=
  whole (Seq (lit_i "/") (glb_tail not_space_quote)).

(** The [href]/[src] pattern: group 1 is the attribute's value. *)
Definition re_attribute : pattern :=
  {| p_before := seq_of [Alt (word_i "href") (word_i "src"); lit_i "=";
                         Chr is_quote; NotAhead http_prefix];
     p_group := glb_tail not_quote;
     p_after := Chr is_quote |}.

(** The model id pattern of [_extract_model_id], with [re.IGNORECASE]. *)
Definition re_model_id : pattern :=
  whole (seq_of [word_i "v2-"; Rep 8 (Chr is_hex_i);
                 Rep 3 (Seq (lit_i "-") (Rep 4 (Chr is_hex_i)));
                 lit_i "-"; Rep 12 (Chr is_hex_i)]).

(** Two backslashes, [u], four hexadecimal digits (group 1). *)
Definition re_u_double : pattern :=
  {| p_before := seq_of [lit "\"; lit "\"; lit "u"];
     p_group := Rep 4 (Chr is_hex);
     p_after := Eps |}.

(** One backslash, [u], four hexadecimal digits (group 1). *)
Definition re_u_single : pattern :=
  {| p_before := seq_of [lit "\"; lit "u"];
     p_group := Rep 4 (Chr is_hex);
     p_after := Eps |}.

(* ================================================================= *)
(** ** The program *)

Section Program.

Variable L : PyLib.

(** [urllib.parse.urlsplit(url)]; [ValueError] for a bracket without its
    partner, for a host in brackets that the library's check refuses (with
    the message of the check) and for a host that NFKC turns into
    delimiters. *)
Definition urlsplit (url : str) : outcome SplitResult :=
  let url := lstrip_chars c0_control_or_space url in
  let url := filter (fun c => negb (unsafe_url_char c)) url in
  let (sch, url) :=
    match after_first (ch ":") url with
    | Some rest =>
        let pre := before_first (ch ":") url in
        match pre with
        | c0 :: _ =>
            if is_ascii_alpha c0 && forallb is_scheme_char pre
            then (lower pre, rest) else ([], url)
        | [] => ([], url)
        end
    | None => ([], url)
    end in
  obind
    (if startswith url (ustr "//") then
       let (nl, rest) := span (fun c => negb (netloc_delim c)) (skipn 2 url) in
       let lb := contains (ch "[") nl in
       let rb := contains (ch "]") nl in
       if (lb && negb rb) || (rb && negb lb) then Raise invalid_ipv6
       else
         match (if lb && rb then check_bracketed_netloc L nl else None) with
         | Some msg => Raise (ValueError msg)
         | None => Return (nl, rest)
         end
     else Return ([], url))
    (fun '(nl, url) =>
       let (url, frag) :=
         match after_first (ch "#") url with
         | Some f => (before_first (ch "#") url, f)
         | None => (url, [])
         end in
       let (url, qry) :=
         match after_first (ch "?") url with
         | Some q => (before_first (ch "?") url, q)
         | None => (url, [])
         end in
       if negb (is_ascii nl) && negb (nfkc_netloc_ok L nl)
       then Raise (invalid_nfkc nl)
       else Return {| sr_scheme := sch; sr_netloc := nl; sr_path := url;
                      sr_query := qry; sr_fragment := frag |}).

(** [_splitparams(url)]: the parameters follow the first [;] of the last
    path segment. *)
Definition splitparams (url : str) : str * str :=
  let seg := basename url in
  let dir := firstn (length url - length seg) url in
  match after_first (ch ";") seg with
  | Some ps => (dir ++ before_first (ch ";") seg, ps)
  | None => (url, [])
  end.

(** [urllib.parse.urlparse(url)] *)
Definition urlparse (url : str) : outcome ParseResult :=
  obind (urlsplit url) (fun r =>
    let (p, ps) :=
      if existsb (str_eqb (sr_scheme r)) uses_params && contains (ch ";") (sr_path r)
      then splitparams (sr_path r) else (sr_path r, []) in
    Return {| scheme := sr_scheme r; netloc := sr_netloc r; path := p;
              params := ps; query := sr_query r; fragment := sr_fragment r |}).

(** [bool(s)] of a string. *)
Definition nonempty (s : str) : bool :=
  match s with [] => false | _ :: _ => true end.

Definition _is_url (s : str) : bool :=
  match try_except
          (obind (urlparse s) (fun u =>
             Return ((str_eqb (scheme u) (ustr "http")
                      || str_eqb (scheme u) (ustr "https"))
                     && nonempty (netloc u))))
          (fun _ => Return false) with
  | Return b => b
  | Raise _ => false
  end.

Definition _guess_filename_from_url (url : str) : outcome str :=
  obind (urlparse url) (fun u =>
    let name := basename (path u) in
    let name := if nonempty name then name else ustr "model.glb" in
    Return
      (if negb (endswith (lower name) (ustr ".glb")) then
         if negb (contains (ch ".") name) then name ++ ustr ".glb" else name
       else name)).

Definition _extract_model_id (text : str) : option str :=
  match re_search re_model_id text with
  | Some (_, g) => Some g
  | None => None
  end.

(** The value of one hexadecimal digit. *)
Definition hex_value (c : char) : option N :=
  if is_digit c then Some (c - 0x30)%N
  else if in_range "a" "f" c then Some (c - 0x61 + 10)%N
  else if in_range "A" "F" c then Some (c - 0x41 + 10)%N
  else None.

Fixpoint int16_digits (acc : N) (s : str) : outcome N :=
  match s with
  | [] => Return acc
  | c :: s' =>
      match hex_value c with
      | Some d => int16_digits (16 * acc + d)%N s'
      | None => Raise (ValueError (ustr "invalid literal for int() with base 16"))
      end
  end.

(** [int(s, 16)] on the texts the program gives it, runs of hexadecimal
    digits; the empty text and a character that is no digit are a
    [ValueError]. *)
Definition int16 (s : str) : outcome N :=
  match s with
  | [] => Raise (ValueError (ustr "invalid literal for int() with base 16"))
  | _ :: _ => int16_digits 0%N s
  end.

(** [chr(n)] *)
Definition chr (n : N) : outcome char :=
  if (n <=? 0x10FFFF)%N then Return n
  else Raise (ValueError (ustr "chr() arg not in range(0x110000)")).

(** [_u_repl(m)], given [(m.group(0), m.group(1))]. *)
Definition _u_repl (m : str * str) : outcome str :=
  try_except
    (obind (int16 (snd m)) (fun n => obind (chr n) (fun c => Return [c])))
    (fun _ => Return (fst m)).

(** [html.unescape(s)] *)
Definition html_unescape (s : str) : outcome str :=
  if negb (contains (ch "&") s) then Return s else charref_sub L s.

(** The body of the [try] of [_normalize_found_url]. *)
Definition normalize_body (raw : str) : outcome str :=
  let s := strip raw in
  let s :=
    if endswith s [backslash] && negb (endswith s [backslash; backslash])
    then removelast s else s in
  let s := replace [backslash; dquote] [dquote]
             (replace [backslash; ch "/"] [ch "/"] s) in
  let s := replace [backslash; backslash] [backslash] s in
  obind (re_sub re_u_double _u_repl s) (fun s =>
  obind (re_sub re_u_single _u_repl s) (fun s =>
  obind (try_except (html_unescape s) (fun _ => Return s)) (fun s =>
  Return (strip s)))).

Definition _normalize_found_url (raw : str) : outcome str :=
  try_except (normalize_body raw) (fun _ => Return raw).

Definition msg_fetching (page_url : str) : str :=
  ustr "fetching page to look for a .glb link " ++ [0x2013%N] ++ ustr " " ++ page_url.

Definition msg_normalized (a b : str) : str :=
  ustr "normalized url: " ++ a ++ ustr " -> " ++ b.

(** [norm = _normalize_found_url(found)], the log line when it changed
    the text, and [return norm]. *)
Definition return_normalized (found : str) : M (option str) :=
  (norm <- lift (_normalize_found_url found) ;;
   (if negb (str_eqb norm found) then log (msg_normalized found norm) else ret tt) ;;
   ret (Some norm))%M.

Definition scan_page_for_glb (net : network) (page_url : str) : M (option str) :=
  (log (msg_fetching page_url) ;;
   r <- fetch net page_url ;;
   let html := r_text r in
   match re_findall re_absolute html with
   | c0 :: _ => return_normalized c0
   | [] =>
       match re_findall re_root_relative html with
       | r0 :: _ =>
           joined <- lift (urljoin L (r_url r) r0) ;;
           return_normalized joined
       | [] =>
           match re_findall re_attribute html with
           | r0 :: _ =>
               joined <- lift (urljoin L (r_url r) r0) ;;
               return_normalized joined
           | [] => ret None
           end
       end
   end)%M.

Definition meshy_page (model_id : str) : str :=
  ustr "https://www.meshy.ai/3d-models/" ++ model_id.

(** The text of the final [ValueError]. *)
Definition guidance : str :=
  ustr "couldn" ++ [0x2019%N] ++
  ustr "t find a direct .glb download link from what you pasted." ++ [0x0A%N] ++
  ustr "tip " ++ [0x2013%N] ++
  ustr " in meshy, use the download/export option and copy the direct .glb link if available.".

(** [Resolved(glb_url=u, filename=_guess_filename_from_url(u))] *)
Definition resolved (u : str) : M Resolved :=
  (fn <- lift (_guess_filename_from_url u) ;;
   ret {| glb_url := u; filename := fn |})%M.

(** [if glb:] for an optional string. *)
Definition truthy (o : option str) : option str :=
  match o with
  | Some (c :: s) => Some (c :: s)
  | _ => None
  end.

Definition is_direct_glb (s : str) : bool :=
  _is_url s && endswith (before_first (ch "?") (lower s)) (ustr ".glb").

Definition resolve_to_glb_url (net : network) (user_input : str) : M Resolved :=
  let s := strip user_input in
  if is_direct_glb s then resolved s
  else
    (found <- (if _is_url s then scan_page_for_glb net s else ret None) ;;
     match truthy found with
     | Some glb => resolved glb
     | None =>
         match _extract_model_id s with
         | Some model_id =>
             found <- scan_page_for_glb net (meshy_page model_id) ;;
             match truthy found with
             | Some glb => resolved glb
             | None => lift (Raise (ValueError guidance))
             end
         | None => lift (Raise (ValueError guidance))
         end
     end)%M.

End Program.

(* ================================================================= *)
(** ** The download's progress *)

(** A Python [float]: [(m, e)] stands for [m * 2^e]. *)
Definition float := (Z * Z)%type.

(** [num / den] rounded to the nearest integer, ties to the even one
    ([0 <= num], [0 < den]). *)
Definition round_half_even (num den : Z) : Z :=
  let q := (num / den)%Z in
  let r := (num mod den)%Z in
  if (2 * r <? den)%Z then q
  else if (den <? 2 * r)%Z then (q + 1)%Z
  else if Z.even q then q else (q + 1)%Z.

(** The binary exponent of [a / b]: [2^e <= a / b < 2^(e+1)]
    ([0 < a], [0 < b]). *)
Definition quotient_exponent (a b : Z) : Z :=
  let d := (Z.log2 a - Z.log2 b)%Z in
  if (a * 2 ^ Z.max 0 (- d) <? b * 2 ^ Z.max 0 d)%Z then (d - 1)%Z else d.

(** [a / b] of two [int]s ([0 <= a], [0 < b], as in the program): the
    quotient correctly rounded to a binary64 float, 53 bits of mantissa,
    least exponent [-1074]; [OverflowError] beyond the floats. *)
Definition truediv (a b : Z) : outcome float :=
  if (a =? 0)%Z then Return (0, 0)%Z
  else
    let e := quotient_exponent a b in
    let sh := Z.max (e - 52) (-1074) in
    let m := round_half_even (a * 2 ^ Z.max 0 (- sh)) (b * 2 ^ Z.max 0 sh) in
    if ((0 <=? sh) && (2 ^ 1024 <=? m * 2 ^ sh))%Z then Raise OverflowError
    else Return (m, sh).

(** [int(x)] of a float that is not negative. *)
Definition int_of_float (x : float) : Z :=
  let (m, e) := x in
  if (0 <=? e)%Z then (m * 2 ^ e)%Z else (m / 2 ^ (- e))%Z.

(** [min(99, (got // (1024 * 1024)) % 100)] *)
Definition pulse (got : Z) : Z := Z.min 99 ((got / (1024 * 1024)) mod 100).

(** [int(r.headers.get("content-length") or 0)], the header given as the
    number it spells, if there is one. *)
Definition declared_total (content_length : option Z) : Z :=
  match content_length with
  | Some n => n
  | None => 0%Z
  end.

(** The loop over [r.iter_content]: each chunk is given by its length,
    [reported] are the values passed to [progress_cb] so far. *)
Fixpoint iter_content (total got : Z) (chunks : list N) (reported : list Z)
    : list Z * outcome unit :=
  match chunks with
  | [] => (reported, Return tt)
  | n :: rest =>
      if (n =? 0)%N then iter_content total got rest reported
      else
        let got := (got + Z.of_N n)%Z in
        if (0 <? total)%Z then
          match truediv (got * 100) total with
          | Return x => iter_content total got rest (reported ++ [int_of_float x])
          | Raise e => (reported, Raise e)
          end
        else iter_content total got rest (reported ++ [pulse got])
  end.

(** [download_file] for a response without an error status, whose body
    arrives whole: the values passed to [progress_cb], in order, and how
    the call ends.  (The directory, the file and its bytes are not
    modelled; a chunk stands for its length.) *)
Definition download_file (content_length : option Z) (chunks : list N)
    : list Z * outcome unit :=
  match iter_content (declared_total content_length) 0 chunks [] with
  | (reported, Return _) => (reported ++ [100%Z], Return tt)
  | (reported, Raise e) => (reported, Raise e)
  end.

(* ================================================================= *)
(** ** What a pattern matches, stated without the matcher *)

(** [lang r m rest]: the text [m], followed by [rest], is a match of [r].
    ([rest] matters to the look-ahead only.) *)
Fixpoint lang (r : regex) (m rest : str) : Prop :=
  match r with
  | Eps => m = []
  | Chr p => exists c, m = [c] /\ p c = true
  | Seq r1 r2 =>
      exists m1 m2, m = m1 ++ m2 /\ lang r1 m1 (m2 ++ rest) /\ lang r2 m2 rest
  | Alt r1 r2 => lang r1 m rest \/ lang r2 m rest
  | Opt r1 => lang r1 m rest \/ m = []
  | Plus _ p => m <> [] /\ Forall (fun c => p c = true) m
  | Rep n r1 =>
      (fix rep (n : nat) (m : str) : Prop :=
         match n with
         | O => m = []
         | S n' =>
             exists m1 m2, m = m1 ++ m2 /\ lang r1 m1 (m2 ++ rest) /\ rep n' m2
         end) n m
  | NotAhead r1 => m = [] /\ forall m1 rest1, rest = m1 ++ rest1 -> ~ lang r1 m1 rest1
  end.

(** [w] with group 1 [g], followed by [rest], is a match of the pattern. *)
Definition pmatch (p : pattern) (w g rest : str) : Prop :=
  exists b a,
    w = b ++ g ++ a
    /\ lang (p_before p) b (g ++ a ++ rest)
    /\ lang (p_group p) g (a ++ rest)
    /\ lang (p_after p) a rest.

(** The text [s] holds a match of the pattern. *)
Definition occurs (p : pattern) (s : str) : Prop :=
  exists pre w g rest, s = pre ++ w ++ rest /\ pmatch p w g rest.

(** [g] is group 1 of a match of the pattern in [s] that starts where the
    first match starts. *)
Definition leftmost (p : pattern) (s g : str) : Prop :=
  exists pre w rest,
    s = pre ++ w ++ rest /\ pmatch p w g rest
    /\ forall pre' w' g' rest',
         s = pre' ++ w' ++ rest' -> pmatch p w' g' rest' -> length pre <= length pre'.

Fixpoint no_lookahead (r : regex) : Prop :=
  match r with
  | Eps | Chr _ | Plus _ _ => True
  | Seq r1 r2 | Alt r1 r2 => no_lookahead r1 /\ no_lookahead r2
  | Opt r1 | Rep _ r1 => no_lookahead r1
  | NotAhead _ => False
  end.

(* ================================================================= *)
(** ** The normalizer as the specification words it

    Seven stages, each a function of the text, applied one after the
    other. *)

(** Stage 1: strip a single trailing backslash that is not escaped. *)
Definition strip_trailing_backslash (s : str) : str :=
  if endswith s [backslash] && negb (endswith s [backslash; backslash])
  then removelast s else s.

(** Stage 2: a backslash before a slash or a double quote goes. *)
Definition unescape_slash_quote (s : str) : str :=
  replace [backslash; dquote] [dquote] (replace [backslash; ch "/"] [ch "/"] s).

(** Stage 3: doubled backslashes become single. *)
Definition collapse_backslashes (s : str) : str :=
  replace [backslash; backslash] [backslash] s.

(** The code point that four hexadecimal digits at the start of [s] spell. *)
Definition hex4 (s : str) : option N :=
  match s with
  | h1 :: h2 :: h3 :: h4 :: _ =>
      match hex_value h1, hex_value h2, hex_value h3, hex_value h4 with
      | Some a, Some b, Some c, Some d => Some (((a * 16 + b) * 16 + c) * 16 + d)%N
      | _, _, _, _ => None
      end
  | _ => None
  end.

(** Stages 4 and 5: every [prefix] that four hexadecimal digits follow is
    replaced, with the digits, by the character they spell. *)
Fixpoint decode_from (prefix : str) (skip : nat) (s : str) : str :=
  match s with
  | [] => []
  | c :: s' =>
      match skip with
      | S k => decode_from prefix k s'
      | O =>
          match (if startswith s prefix then hex4 (skipn (length prefix) s) else None) with
          | Some n => n :: decode_from prefix (length prefix + 3) s'
          | None => c :: decode_from prefix 0 s'
          end
      end
  end.

Definition decode_escapes (prefix s : str) : str := decode_from prefix 0 s.

(** Stage 6: the HTML entities are decoded; a text whose decoding fails
    stays as it is. *)
Definition unescape_entities (L : PyLib) (s : str) : str :=
  match html_unescape L s with
  | Return t => t
  | Raise _ => s
  end.


(** The pipeline of the specification: stages 1 to 7 in this order. *)
Definition normalize_spec (L : PyLib) (raw : str) : str :=
  let s := strip_trailing_backslash raw in
  let s := unescape_slash_quote s in
  let s := collapse_backslashes s in
  let s := decode_escapes [backslash; backslash; ch "u"] s in
  let s := decode_escapes [backslash; ch "u"] s in
  let s := unescape_entities L s in
  strip s.

(* ================================================================= *)
(** ** Progress as the specification words it *)

(** The bytes received after each chunk that is not empty. *)
Fixpoint received (got : Z) (chunks : list N) : list Z :=
  match chunks with
  | [] => []
  | n :: rest =>
      if (n =? 0)%N then received got rest
      else (got + Z.of_N n)%Z :: received (got + Z.of_N n)%Z rest
  end.

Definition total_bytes (chunks : list N) : Z :=
  fold_right (fun n acc => (Z.of_N n + acc)%Z) 0%Z chunks.

(** [int(got * 100 / total)], the value the program reports (0 stands for
    a division that overflows, which no delivered byte count reaches). *)
Definition float_percent (total got : Z) : Z :=
  match truediv (got * 100) total with
  | Return x => int_of_float x
  | Raise _ => 0%Z
  end.

(** [floor(receivedBytes * 100 / totalLength)] *)
Definition floor_percent (total got : Z) : Z := (got * 100 / total)%Z.

Inductive nondecreasing : list Z -> Prop :=
| nd_nil : nondecreasing []
| nd_one : forall x, nondecreasing [x]
| nd_cons : forall x y l, (x <= y)%Z -> nondecreasing (y :: l) -> nondecreasing (x :: y :: l).

(** The last suffix [.glb] of a file name, in any case of letters. *)
Definition ends_in_glb (name : str) : bool := endswith (lower name) (ustr ".glb").

(* ================================================================= *)
(** ** Example inputs *)

(** A library for the examples.  They are ASCII texts without character
    references and hosts in brackets, on which the first and the last two
    functions are not called; the one page of the examples is on the site
    [www.meshy.ai] and its link is root-relative, which [urljoin] appends
    to the site. *)
Definition example_lib : PyLib :=
  {| charref_sub := fun s => Return s;
     urljoin := fun _ u => Return (ustr "https://www.meshy.ai" ++ u);
     check_bracketed_netloc := fun _ => None;
     nfkc_netloc_ok := fun _ => true |}.

Definition example_id : str := ustr "v2-019a7474-3f2a-7a7d-9282-cc5599095a44".

Definition example_page_url : str := meshy_page example_id.

(** A network that answers every request with a time-out. *)
Definition net_timeout : network := fun _ _ => Raise Timeout.

(** A network that serves one page, with a relative link, at every URL. *)
Definition example_html : str :=
  ustr "<a href=" ++ [dquote] ++ ustr "/assets/m.glb" ++ [dquote] ++ ustr ">model</a>".

Definition net_example : network :=
  fun _ url => Return {| r_url := url; r_text := example_html |}.

Definition escaped_url : str := ustr "https:\/\/a.b\/x.glb".

Definition clean_url : str := ustr "https://a.b/x.glb".

(** Four backslashes between two letters. *)
Definition four_backslashes : str :=
  ustr "a" ++ [backslash; backslash; backslash; backslash] ++ ustr "b".

(** A backslash before a trailing space. *)
Definition backslash_space : str := ustr "a" ++ [backslash] ++ ustr " ".

(** A direct link whose path names a script and whose fragment ends in
    [.glb]. *)
Definition script_url : str := ustr "https://a.b/get.php#m.glb".

Definition huge_total : Z := (10 ^ 17)%Z.

(** All of [huge_total] but one byte, then the last byte. *)
Definition huge_chunks : list N := [(10 ^ 17 - 1)%N; 1%N].

(** The download of the specification's test: 10,000,000 bytes in chunks
    of 512 KiB. *)
Definition ten_million : Z := 10000000%Z.

Definition ten_million_chunks : list N := repeat 524288%N 19 ++ [38528%N].

(** A direct link with a query string, between spaces. *)
Definition direct_input : str := ustr "  https://a.b/x.glb?token=1 ".

(** A text that is neither a link nor a model id. *)
Definition plain_input : str := ustr "hello world".

(** The model page of the example id: a link that holds a model id. *)
Definition page_input : str := example_page_url.

(** A computation is fetch-safe when it only adds events to the trace and
    every request of its own that the network answers with an exception is
    its last event and its outcome. *)
Definition fetch_safe (net : network) {A} (m : M A) : Prop :=
  forall tr0 tr o,
    m tr0 = (tr, o) ->
    exists evs,
      tr = tr0 ++ evs
      /\ forall pre url post e,
           evs = pre ++ EvGet url :: post ->
           net (length (gets (tr0 ++ pre))) url = Raise e ->
           post = [] /\ o = Raise e.

(** A computation names its file when every target it returns carries the
    file name guessed from its URL. *)
Definition names_its_file (L : PyLib) (m : M Resolved) : Prop :=
  forall tr tr' r,
    m tr = (tr', Return r) ->
    _guess_filename_from_url L (glb_url r) = Return (filename r).

(** A direct link followed by a fragment. *)
Definition fragment_url : str := ustr "https://a.b/x.glb#view".

(** A page with a link that is relative to the page, not to the root. *)
Definition relative_html : str :=
  ustr "<a href=" ++ [dquote] ++ ustr "assets/m.glb" ++ [dquote] ++ ustr ">model</a>".

(** The log line [return_normalized] writes when [norm] differs from
    [found]. *)
Definition norm_log (found norm : str) : list event :=
  if negb (str_eqb norm found) then [EvLog (msg_normalized found norm)] else [].

(** The events of one fetch: the log line, then the request. *)
Definition fetch_events (url : str) : list event :=
  [EvLog (msg_fetching url); EvGet url].

(* ================================================================= *)
(** ** Further notions used by the properties of the code *)

(** The classes of a pattern of fixed shape, one per character: a pattern
    made of single characters, sequences and counted repetitions. *)
Fixpoint shape (r : regex) : option (list (char -> bool)) :=
  match r with
  | Eps => Some []
  | Chr p => Some [p]
  | Seq r1 r2 =>
      match shape r1, shape r2 with
      | Some a, Some b => Some (a ++ b)
      | _, _ => None
      end
  | Rep n r1 =>
      match shape r1 with
      | Some a => Some (concat (repeat a n))
      | None => None
      end
  | Alt _ _ | Opt _ | Plus _ _ | NotAhead _ => None
  end.

(** The text has one character for each class, and each is in its class. *)
Fixpoint fits (sh : list (char -> bool)) (m : str) : bool :=
  match sh, m with
  | [], [] => true
  | p :: sh', c :: m' => p c && fits sh' m'
  | _, _ => false
  end.

(** A digit or one of [a] to [f]. *)
Definition lower_hex (c : char) : bool := is_digit c || in_range "a" "f" c.

Definition is_char (a : ascii) (c : char) : bool := char_eqb c (ch a).
Arguments is_char a%_char c.

(** [v2-] and five groups of 8, 4, 4, 4 and 12 hexadecimal digits, with
    hyphens between them. *)
Definition id_shape : list (char -> bool) :=
  [is_char "v"; is_char "2"; is_char "-"] ++ repeat lower_hex 8
  ++ [is_char "-"] ++ repeat lower_hex 4
  ++ [is_char "-"] ++ repeat lower_hex 4
  ++ [is_char "-"] ++ repeat lower_hex 4
  ++ [is_char "-"] ++ repeat lower_hex 12.

(** A model id: in lower case, it has the shape [id_shape]. *)
Definition well_formed_id (id : str) : bool := fits id_shape (lower id).

(** Some class of the pattern accepts the character: every character of
    a match is one of these. *)
Fixpoint alphabet (r : regex) (c : char) : bool :=
  match r with
  | Eps | NotAhead _ => false
  | Chr p | Plus _ p => p c
  | Seq r1 r2 | Alt r1 r2 => alphabet r1 c || alphabet r2 c
  | Opt r1 | Rep _ r1 => alphabet r1 c
  end.

(** The text [urlsplit] works on: leading control characters and spaces
    stripped, tabs and line breaks removed. *)
Definition cleaned (url : str) : str :=
  filter (fun c => negb (unsafe_url_char c)) (lstrip_chars c0_control_or_space url).

(** A character of a plain host: ASCII, no delimiter of the host and no
    bracket. *)
Definition plain_host_char (c : char) : bool :=
  negb (netloc_delim c) && (c <? 0x80)%N
  && negb (is_char "[" c || is_char "]" c).

(** A character that ends neither the path nor the text [urlsplit] reads:
    no [#], [?], [;], tab, carriage return or line feed. *)
Definition path_char (c : char) : bool :=
  negb (is_char "#" c || is_char "?" c || is_char ";" c || unsafe_url_char c).

(** A computation makes at most [n] requests, each to a URL in [allowed]. *)
Definition requests_within (allowed : str -> Prop) (n : nat) {A} (m : M A) : Prop :=
  forall tr0 tr o,
    m tr0 = (tr, o) ->
    exists evs,
      tr = tr0 ++ evs
      /\ length (gets evs) <= n
      /\ forall url, In (EvGet url) evs -> allowed url.

(** The URLs a resolution of [input] may request: the trimmed input, when
    it is an absolute HTTP(S) URL, and the page of the model id in it. *)
Definition resolution_target (L : PyLib) (input url : str) : Prop :=
  (_is_url L (strip input) = true /\ url = strip input)
  \/ exists id, _extract_model_id (strip input) = Some id /\ url = meshy_page id.

(** Every value the computation returns satisfies [Q]. *)
Definition returns_only {A} (Q : A -> Prop) (m : M A) : Prop :=
  forall tr tr' a, m tr = (tr', Return a) -> Q a.



(** [if not chunk: continue], read the other way: the chunks the loop
    does not skip. *)
Definition nonempty_chunk (n : N) : bool := negb (n =? 0)%N.

(** A network that serves a page without any link at every URL. *)
Definition blank_html : str := ustr "<html><body>nothing here</body></html>".

Definition net_blank : network :=
  fun _ url => Return {| r_url := url; r_text := blank_html |}.

(** Every request among the events follows the log line that announces
    it. *)
Definition announced (evs : list event) : Prop :=
  forall pre url post,
    evs = pre ++ EvGet url :: post ->
    exists pre', pre = pre' ++ [EvLog (msg_fetching url)].

(** A computation announces its requests when the events it adds do. *)
Definition announces {A} (m : M A) : Prop :=
  forall tr0 tr o, m tr0 = (tr, o) -> exists evs, tr = tr0 ++ evs /\ announced evs.

(** A link that the scrape hands back is a result of the normalizer. *)
Definition normalized (L : PyLib) (o : option str) : Prop :=
  forall g, o = Some g -> exists found, _normalize_found_url L found = Return g.

(** The page holds no match of any of the three link patterns. *)
Definition no_candidate (html : str) : Prop :=
  ~ occurs re_absolute html /\ ~ occurs re_root_relative html
  /\ ~ occurs re_attribute html.




(** The page of a link relative to the page, served at every URL. *)
Definition net_relative : network :=
  fun _ url => Return {| r_url := url; r_text := relative_html |}.

(** The number of decimal digits at the start of a text. *)
Fixpoint count_digits (s : str) : nat :=
  match s with
  | c :: s' => if is_digit c then S (count_digits s') else 0
  | [] => 0
  end.

(** The text holds a decimal character reference, [&#] and digits, of more
    than 4300 digits: more than [int] converts. *)
Fixpoint long_decimal_reference (s : str) : bool :=
  match s with
  | a :: s' =>
      (char_eqb a (ch "&")
       && match s' with
          | h :: ds => char_eqb h (ch "#") && Nat.ltb 4300 (count_digits ds)
          | [] => false
          end)
      || long_decimal_reference s'
  | [] => false
  end.

(** The library of the examples with [charref_sub] raising, as it does
    through [int], on a decimal reference of more than 4300 digits (the
    message is cut short; the program discards it). *)
Definition limit_lib : PyLib :=
  {| charref_sub := fun s =>
       if long_decimal_reference s
       then Raise (ValueError
                     (ustr "Exceeds the limit (4300 digits) for integer string conversion"))
       else Return s;
     urljoin := urljoin example_lib;
     check_bracketed_netloc := check_bracketed_netloc example_lib;
     nfkc_netloc_ok := nfkc_netloc_ok example_lib |}.

(** A decimal character reference of 4301 digits. *)
Definition long_reference : str := ustr "&#" ++ repeat (ch "1") 4301 ++ ustr ";".

(** The escaped URL of the specification with that reference in its query
    string, and the same with its slashes unescaped. *)
Definition escaped_long_url : str := ustr "https:\/\/a.b\/x.glb?n=" ++ long_reference.

Definition unescaped_long_url : str := ustr "https://a.b/x.glb?n=" ++ long_reference.

(** A page with an absolute link and a query string, served at every
    URL. *)
Definition absolute_link : str := ustr "https://cdn.a.b/m/fig.glb?v=2".

Definition absolute_html : str :=
  ustr "<a href='" ++ absolute_link ++ ustr "'>get</a> <a href='/other.glb'>other</a>".

Definition net_absolute : network :=
  fun _ url => Return {| r_url := url; r_text := absolute_html |}.

(** A text around a model id. *)
Definition id_in_text : str := ustr "my model: " ++ example_id ++ ustr " (shared)".

(** A link in capitals with a path and a query. *)
Definition shouting_url : str := ustr "  HTTPS://A.B/dir/Model.GLB?x=1".

(* ================================================================= *)
(** * Properties *)

(** ** The matcher finds exactly the matches *)

Section Matcher.

Variable A : Type.

Implicit Types (k : str -> option A) (p : char -> bool).

Lemma plus_lazy_sound p s k a :
  plus_lazy p s k = Some a ->
  exists m rest,
    s = m ++ rest /\ m <> [] /\ Forall (fun c => p c = true) m /\ k rest = Some a.
Proof.
  induction s as [|c s IH]; simpl; [discriminate|].
  destruct (p c) eqn:Hc; [|discriminate].
  destruct (k s) eqn:Hk.
  - intros [= <-]. exists [c], s. repeat split; auto. discriminate.
  - intros H. destruct (IH H) as (m & rest & -> & _ & Hall & Hr).
    exists (c :: m), rest. repeat split; auto. discriminate.
Qed.

Lemma plus_lazy_complete p s k :
  plus_lazy p s k = None ->
  forall m rest,
    s = m ++ rest -> m <> [] -> Forall (fun c => p c = true) m -> k rest = None.
Proof.
  induction s as [|c s IH]; simpl; intros H m rest Hs Hm Hall.
  - destruct m; [congruence | discriminate].
  - destruct m as [|c' m]; [congruence|]. injection Hs as <- ->.
    inversion Hall as [|? ? Hc Hall']; subst. rewrite Hc in H.
    destruct (k (m ++ rest)) eqn:Hk; [discriminate|].
    destruct m as [|c2 m]; [exact Hk|].
    apply (IH H (c2 :: m) rest); auto. discriminate.
Qed.

Lemma plus_greedy_sound p s k a :
  plus_greedy p s k = Some a ->
  exists m rest,
    s = m ++ rest /\ m <> [] /\ Forall (fun c => p c = true) m /\ k rest = Some a.
Proof.
  induction s as [|c s IH]; simpl; [discriminate|].
  destruct (p c) eqn:Hc; [|discriminate].
  destruct (plus_greedy p s k) eqn:Hg.
  - intros [= <-]. destruct (IH eq_refl) as (m & rest & -> & _ & Hall & Hr).
    exists (c :: m), rest. repeat split; auto. discriminate.
  - intros H. exists [c], s. repeat split; auto. discriminate.
Qed.

Lemma plus_greedy_complete p s k :
  plus_greedy p s k = None ->
  forall m rest,
    s = m ++ rest -> m <> [] -> Forall (fun c => p c = true) m -> k rest = None.
Proof.
  induction s as [|c s IH]; simpl; intros H m rest Hs Hm Hall.
  - destruct m; [congruence | discriminate].
  - destruct m as [|c' m]; [congruence|]. injection Hs as <- ->.
    inversion Hall as [|? ? Hc Hall']; subst. rewrite Hc in H.
    destruct (plus_greedy p (m ++ rest) k) eqn:Hg; [discriminate|].
    destruct m as [|c2 m]; [exact H|].
    apply (IH eq_refl (c2 :: m) rest); auto. discriminate.
Qed.

End Matcher.

(** Soundness and completeness of [bt], proved together: the look-ahead
    needs the one at the other's type. *)
Lemma bt_correct r :
  forall (A : Type) (s : str) (k : str -> option A),
    (forall a, bt r s k = Some a ->
       exists m rest, s = m ++ rest /\ lang r m rest /\ k rest = Some a)
    /\ (bt r s k = None ->
        forall m rest, s = m ++ rest -> lang r m rest -> k rest = None).
Proof.
  induction r as [|p|r1 IH1 r2 IH2|r1 IH1 r2 IH2|r1 IH1|g p|n r1 IH1|r1 IH1];
    intros A s k.
  - (* Eps *)
    simpl. split.
    + intros a H. exists [], s. auto.
    + intros H m rest -> ->. exact H.
  - (* Chr *)
    simpl. split.
    + intros a H. destruct s as [|c s]; [discriminate|].
      destruct (p c) eqn:Hc; [|discriminate].
      exists [c], s. repeat split; eauto.
    + intros H m rest -> (c & -> & Hc). simpl in H. rewrite Hc in H. exact H.
  - (* Seq *)
    simpl. split.
    + intros a H.
      destruct (proj1 (IH1 _ s _) a H) as (m1 & rest1 & -> & L1 & H2).
      destruct (proj1 (IH2 _ rest1 k) a H2) as (m2 & rest & -> & L2 & Hk).
      exists (m1 ++ m2), rest. rewrite <- app_assoc. repeat split; eauto.
    + intros H m rest -> (m1 & m2 & -> & L1 & L2).
      rewrite <- app_assoc in H.
      pose proof (proj2 (IH1 _ _ _) H m1 (m2 ++ rest) eq_refl L1) as H2.
      exact (proj2 (IH2 _ _ _) H2 m2 rest eq_refl L2).
  - (* Alt *)
    simpl. split.
    + intros a H. destruct (bt r1 s k) eqn:H1.
      * injection H as <-.
        destruct (proj1 (IH1 _ s k) _ H1) as (m & rest & -> & L1 & Hk).
        exists m, rest. auto.
      * destruct (proj1 (IH2 _ s k) _ H) as (m & rest & -> & L2 & Hk).
        exists m, rest. auto.
    + intros H m rest -> [L1|L2]; destruct (bt r1 (m ++ rest) k) eqn:H1;
        try discriminate.
      * exact (proj2 (IH1 _ _ _) H1 m rest eq_refl L1).
      * exact (proj2 (IH2 _ _ _) H m rest eq_refl L2).
  - (* Opt *)
    simpl. split.
    + intros a H. destruct (bt r1 s k) eqn:H1.
      * injection H as <-.
        destruct (proj1 (IH1 _ s k) _ H1) as (m & rest & -> & L1 & Hk).
        exists m, rest. auto.
      * exists [], s. auto.
    + intros H m rest -> [L1| ->]; destruct (bt r1 _ k) eqn:H1; try discriminate.
      * exact (proj2 (IH1 _ _ _) H1 m rest eq_refl L1).
      * exact H.
  - (* Plus *)
    destruct g; simpl; split.
    + intros a H. destruct (plus_greedy_sound _ _ _ H) as (m & rest & ? & ? & ? & ?).
      exists m, rest. auto.
    + intros H m rest Hs [Hm Hall]. eapply plus_greedy_complete; eauto.
    + intros a H. destruct (plus_lazy_sound _ _ _ H) as (m & rest & ? & ? & ? & ?).
      exists m, rest. auto.
    + intros H m rest Hs [Hm Hall]. eapply plus_lazy_complete; eauto.
  - (* Rep *)
    simpl. revert s. induction n as [|n IHn]; intros s.
    + split.
      * intros a H. exists [], s. auto.
      * intros H m rest -> ->. exact H.
    + split.
      * intros a H.
        destruct (proj1 (IH1 _ s _) a H) as (m1 & rest1 & -> & L1 & H2).
        destruct (proj1 (IHn rest1) a H2) as (m2 & rest & -> & L2 & Hk).
        exists (m1 ++ m2), rest. rewrite <- app_assoc. repeat split; eauto.
      * intros H m rest -> (m1 & m2 & -> & L1 & L2).
        rewrite <- app_assoc in H.
        pose proof (proj2 (IH1 _ _ _) H m1 (m2 ++ rest) eq_refl L1) as H2.
        exact (proj2 (IHn _) H2 m2 rest eq_refl L2).
  - (* NotAhead *)
    simpl. split.
    + intros a H. destruct (bt r1 s (fun _ => Some tt)) eqn:H1; [discriminate|].
      exists [], s. repeat split; auto.
      intros m1 rest1 -> L1.
      pose proof (proj2 (IH1 _ _ _) H1 m1 rest1 eq_refl L1). discriminate.
    + intros H m rest -> [-> Hno]. simpl in *.
      destruct (bt r1 rest (fun _ => Some tt)) eqn:H1; [|exact H].
      destruct (proj1 (IH1 _ _ _) _ H1) as (m1 & rest1 & Hs & L1 & _).
      destruct (Hno m1 rest1 Hs L1).
Qed.

Lemma firstn_prefix (a b : str) : firstn (length (a ++ b) - length b) (a ++ b) = a.
Proof.
  rewrite length_app, Nat.add_sub.
  rewrite firstn_app, Nat.sub_diag, firstn_all. simpl. apply app_nil_r.
Qed.

Lemma match_here_sound p s w g :
  match_here p s = Some (w, g) -> exists rest, s = w ++ rest /\ pmatch p w g rest.
Proof.
  unfold match_here. intros H.
  destruct (proj1 (bt_correct (p_before p) _ _) _ H) as (b & s1 & -> & Lb & H1).
  destruct (proj1 (bt_correct (p_group p) _ _) _ H1) as (g' & s2 & -> & Lg & H2).
  destruct (proj1 (bt_correct (p_after p) _ _) _ H2) as (a & s3 & -> & La & H3).
  injection H3 as <- <-.
  replace (b ++ g' ++ a ++ s3) with ((b ++ g' ++ a) ++ s3)
    by (now rewrite <- !app_assoc).
  replace (g' ++ a ++ s3) with (g' ++ (a ++ s3)) by reflexivity.
  rewrite !firstn_prefix.
  exists s3. split; [reflexivity|].
  exists b, a. auto.
Qed.

Lemma match_here_complete p s :
  match_here p s = None -> forall w g rest, s = w ++ rest -> ~ pmatch p w g rest.
Proof.
  unfold match_here. intros H w g rest -> (b & a & -> & Lb & Lg & La).
  rewrite <- !app_assoc in H.
  pose proof (proj2 (bt_correct _ _ _) H b _ eq_refl Lb) as H1.
  pose proof (proj2 (bt_correct _ _ _) H1 g _ eq_refl Lg) as H2.
  pose proof (proj2 (bt_correct _ _ _) H2 a _ eq_refl La) as H3.
  discriminate.
Qed.

Lemma occurs_here p w g rest : pmatch p w g rest -> occurs p (w ++ rest).
Proof. intros H. exists [], w, g, rest. auto. Qed.

Lemma occurs_later p c s : occurs p s -> occurs p (c :: s).
Proof.
  intros (pre & w & g & rest & -> & H). exists (c :: pre), w, g, rest. auto.
Qed.

Lemma occurs_cons_inv p c s :
  occurs p (c :: s) ->
  (exists w g rest, c :: s = w ++ rest /\ pmatch p w g rest) \/ occurs p s.
Proof.
  intros (pre & w & g & rest & Hs & H). destruct pre as [|c' pre].
  - left. exists w, g, rest. auto.
  - right. injection Hs as -> ->. exists pre, w, g, rest. auto.
Qed.

(** [re.findall] returns nothing exactly when the text holds no match. *)
Lemma re_findall_nil p s : re_findall p s = [] <-> ~ occurs p s.
Proof.
  unfold re_findall. induction s as [|c s IH]; simpl.
  - destruct (match_here p []) as [[w g]|] eqn:H.
    + split; [discriminate|]. intros Hno. exfalso. apply Hno.
      destruct (match_here_sound _ _ H) as (rest & Hs & Hm).
      rewrite Hs. eapply occurs_here; eauto.
    + split; [|reflexivity]. intros _ (pre & w & g & rest & Hs & Hm).
      destruct pre; [|discriminate]. simpl in Hs.
      eapply match_here_complete; eassumption.
  - destruct (match_here p (c :: s)) as [[w g]|] eqn:H.
    + split; [discriminate|]. intros Hno. exfalso. apply Hno.
      destruct (match_here_sound _ _ H) as (rest & Hs & Hm).
      rewrite Hs. eapply occurs_here; eauto.
    + rewrite IH. split.
      * intros Hno Ho. destruct (occurs_cons_inv Ho) as [(w & g & rest & Hs & Hm)|Ho'].
        -- eapply match_here_complete; eassumption.
        -- exact (Hno Ho').
      * intros Hno Ho. apply Hno. now apply occurs_later.
Qed.

(** The first text [re.findall] returns is group 1 of a leftmost match. *)
Lemma re_findall_first p s g l : re_findall p s = g :: l -> leftmost p s g.
Proof.
  unfold re_findall. induction s as [|c s IH]; simpl.
  - destruct (match_here p []) as [[w g']|] eqn:H; [|discriminate].
    intros [= <- <-]. destruct (match_here_sound _ _ H) as (rest & Hs & Hm).
    exists [], w, rest. repeat split; auto. simpl. intros. lia.
  - destruct (match_here p (c :: s)) as [[w g']|] eqn:H.
    + intros [= <- _]. destruct (match_here_sound _ _ H) as (rest & Hs & Hm).
      exists [], w, rest. repeat split; auto. simpl. intros. lia.
    + intros Hf. destruct (IH Hf) as (pre & w & rest & -> & Hm & Hmin).
      exists (c :: pre), w, rest. repeat split; auto.
      intros pre' w' g' rest' Hs' Hm'. destruct pre' as [|c' pre'].
      * exfalso.
        eapply match_here_complete with (w := w') (g := g') (rest := rest');
          [exact H | exact Hs' | exact Hm'].
      * injection Hs' as _ Hs'. simpl. apply le_n_S. eapply Hmin; eauto.
Qed.

Lemma re_search_none p s : re_search p s = None <-> ~ occurs p s.
Proof.
  induction s as [|c s IH]; simpl.
  - destruct (match_here p []) as [[w g]|] eqn:H.
    + split; [discriminate|]. intros Hno. exfalso. apply Hno.
      destruct (match_here_sound _ _ H) as (rest & Hs & Hm).
      rewrite Hs. eapply occurs_here; eauto.
    + split; [|reflexivity]. intros _ (pre & w & g & rest & Hs & Hm).
      destruct pre; [|discriminate]. simpl in Hs.
      eapply match_here_complete; eassumption.
  - destruct (match_here p (c :: s)) as [[w g]|] eqn:H.
    + split; [discriminate|]. intros Hno. exfalso. apply Hno.
      destruct (match_here_sound _ _ H) as (rest & Hs & Hm).
      rewrite Hs. eapply occurs_here; eauto.
    + rewrite IH. split.
      * intros Hno Ho. destruct (occurs_cons_inv Ho) as [(w & g & rest & Hs & Hm)|Ho'].
        -- eapply match_here_complete; eassumption.
        -- exact (Hno Ho').
      * intros Hno Ho. apply Hno. now apply occurs_later.
Qed.

Lemma re_search_occurs p s m : re_search p s = Some m -> occurs p s.
Proof.
  induction s as [|c s IH]; simpl.
  - destruct (match_here p []) as [[w g]|] eqn:H; [|discriminate].
    intros _. destruct (match_here_sound _ _ H) as (rest & Hs & Hm).
    rewrite Hs. eapply occurs_here; eauto.
  - destruct (match_here p (c :: s)) as [[w g]|] eqn:H.
    + intros _. destruct (match_here_sound _ _ H) as (rest & Hs & Hm).
      rewrite Hs. eapply occurs_here; eauto.
    + intros Hr. apply occurs_later. auto.
Qed.

(** A match of a pattern without look-ahead is one whatever follows it. *)
Lemma lang_any_rest r :
  no_lookahead r -> forall m rest rest', lang r m rest -> lang r m rest'.
Proof.
  induction r as [|p|r1 IH1 r2 IH2|r1 IH1 r2 IH2|r1 IH1|g p|n r1 IH1|r1 IH1];
    simpl; intros Hno m rest rest'; auto.
  - destruct Hno as [N1 N2]. intros (m1 & m2 & -> & L1 & L2).
    exists m1, m2. repeat split; eauto.
  - destruct Hno as [N1 N2]. intros [H|H]; eauto.
  - intros [H|H]; eauto.
  - revert m. induction n as [|n IHn]; intros m; auto.
    intros (m1 & m2 & -> & L1 & L2). exists m1, m2.
    split; [reflexivity|]. split; [eauto | apply IHn; exact L2].
  - destruct Hno.
Qed.

Lemma pmatch_any_rest p :
  no_lookahead (p_before p) -> no_lookahead (p_group p) -> no_lookahead (p_after p) ->
  forall w g rest rest', pmatch p w g rest -> pmatch p w g rest'.
Proof.
  intros Nb Ng Na w g rest rest' (b & a & -> & Lb & Lg & La).
  exists b, a. repeat split; eauto using lang_any_rest.
Qed.

(** A text that holds no match has no part that holds one. *)
Lemma occurs_inside p a s b :
  no_lookahead (p_before p) -> no_lookahead (p_group p) -> no_lookahead (p_after p) ->
  occurs p s -> occurs p (a ++ s ++ b).
Proof.
  intros Nb Ng Na (pre & w & g & rest & -> & Hm).
  exists (a ++ pre), w, g, (rest ++ b). split.
  - now rewrite <- !app_assoc.
  - eapply pmatch_any_rest; eauto.
Qed.

(* ================================================================= *)
(** ** Strings *)

Lemma char_eqb_eq a b : char_eqb a b = true <-> a = b.
Proof. apply N.eqb_eq. Qed.

Lemma char_eqb_refl a : char_eqb a a = true.
Proof. apply N.eqb_refl. Qed.

Lemma str_eqb_eq a b : str_eqb a b = true <-> a = b.
Proof.
  revert b. induction a as [|x a IH]; intros [|y b]; simpl; split;
    try congruence; auto.
  - intros H. apply andb_prop in H as [H1 H2].
    apply char_eqb_eq in H1. apply IH in H2. congruence.
  - intros [= -> ->]. rewrite char_eqb_refl. now apply IH.
Qed.

Lemma str_eqb_refl a : str_eqb a a = true.
Proof. now apply str_eqb_eq. Qed.

Lemma startswith_app p x : startswith (p ++ x) p = true.
Proof.
  induction p as [|a p IH]; simpl; [now destruct x|]. now rewrite char_eqb_refl.
Qed.

Lemma endswith_app x p : endswith (x ++ p) p = true.
Proof. unfold endswith. rewrite rev_app_distr. apply startswith_app. Qed.

Lemma lstrip_suffix s : exists a, s = a ++ lstrip s.
Proof.
  induction s as [|c s [a IH]]; simpl.
  - now exists [].
  - destruct (isspace c).
    + exists (c :: a). simpl. now f_equal.
    + now exists [].
Qed.

(** The trimmed text is a part of the text. *)
Lemma strip_inside s : exists a b, s = a ++ strip s ++ b.
Proof.
  unfold strip, rstrip. destruct (lstrip_suffix s) as [a Ha].
  destruct (lstrip_suffix (rev (lstrip s))) as [b Hb].
  exists a, (rev b). rewrite <- rev_app_distr, <- Hb, rev_involutive. exact Ha.
Qed.



Lemma lower_app a b : lower (a ++ b) = lower a ++ lower b.
Proof. apply map_app. Qed.

(* ================================================================= *)
(** ** The resolver *)

Section Resolver.

Variable L : PyLib.
Variable net : network.



Lemma resolved_spec u tr tr' o :
  resolved L u tr = (tr', o) ->
  tr' = tr /\
  match o with
  | Return r => glb_url r = u /\ _guess_filename_from_url L u = Return (filename r)
  | Raise e => _guess_filename_from_url L u = Raise e
  end.
Proof.
  unfold resolved, bind, lift, ret.
  destruct (_guess_filename_from_url L u) as [name|e]; intros [= <- <-]; auto.
Qed.

Lemma model_id_pattern_plain :
  no_lookahead (p_before re_model_id) /\ no_lookahead (p_group re_model_id)
  /\ no_lookahead (p_after re_model_id).
Proof. simpl. tauto. Qed.

Lemma extract_none_of_input input :
  ~ occurs re_model_id input -> _extract_model_id (strip input) = None.
Proof.
  intros Hno. unfold _extract_model_id.
  destruct (re_search re_model_id (strip input)) as [[w g]|] eqn:H; [|reflexivity].
  exfalso. apply Hno.
  destruct (strip_inside input) as (a & b & Hs). rewrite Hs.
  destruct model_id_pattern_plain as (Nb & Ng & Na).
  apply occurs_inside; auto.
  eapply re_search_occurs; eauto.
Qed.

(** C4.  An input whose trimmed form is no absolute HTTP(S) URL and that
    holds no match of the model id pattern makes no request and writes no
    log line: the resolution raises the [ValueError] that carries the
    guidance text, which is not empty. *)
Theorem resolve_without_url_or_id input tr :
  _is_url L (strip input) = false ->
  ~ occurs re_model_id input ->
  resolve_to_glb_url L net input tr = (tr, Raise (ValueError guidance))
  /\ guidance <> [].
Proof.
  intros Hurl Hno. split; [|discriminate].
  unfold resolve_to_glb_url, is_direct_glb. rewrite Hurl. simpl.
  unfold bind, ret. simpl. rewrite (extract_none_of_input Hno). reflexivity.
Qed.


End Resolver.

(* ================================================================= *)
(** ** The normalizer *)

Lemma hex_value_is_hex c : is_hex c = true -> exists d, hex_value c = Some d /\ (d <= 15)%N.
Proof.
  unfold is_hex, hex_value, is_digit, in_range, ch. simpl.
  destruct ((48 <=? c) && (c <=? 57))%N eqn:H1.
  - intros _. apply andb_prop in H1 as [A B].
    apply N.leb_le in A. apply N.leb_le in B. eexists. split; [reflexivity|lia].
  - destruct ((97 <=? c) && (c <=? 102))%N eqn:H2.
    + intros _. apply andb_prop in H2 as [A B].
      apply N.leb_le in A. apply N.leb_le in B. eexists. split; [reflexivity|lia].
    + destruct ((65 <=? c) && (c <=? 70))%N eqn:H3; [|discriminate].
      intros _. apply andb_prop in H3 as [A B].
      apply N.leb_le in A. apply N.leb_le in B. eexists. split; [reflexivity|lia].
Qed.

Lemma hex_value_not_hex c : is_hex c = false -> hex_value c = None.
Proof.
  unfold is_hex, hex_value, is_digit, in_range, ch. simpl.
  destruct ((48 <=? c) && (c <=? 57))%N; [discriminate|].
  destruct ((97 <=? c) && (c <=? 102))%N; [discriminate|].
  destruct ((65 <=? c) && (c <=? 70))%N; [discriminate|reflexivity].
Qed.

(** On four hexadecimal digits [_u_repl] returns the character they spell:
    neither [int] nor [chr] raises. *)
Lemma u_repl_hex4 w h1 h2 h3 h4 :
  is_hex h1 = true -> is_hex h2 = true -> is_hex h3 = true -> is_hex h4 = true ->
  exists n, hex4 [h1; h2; h3; h4] = Some n /\ _u_repl (w, [h1; h2; h3; h4]) = Return [n].
Proof.
  intros H1 H2 H3 H4.
  destruct (hex_value_is_hex _ H1) as (a & Ea & Ba).
  destruct (hex_value_is_hex _ H2) as (b & Eb & Bb).
  destruct (hex_value_is_hex _ H3) as (c & Ec & Bc).
  destruct (hex_value_is_hex _ H4) as (d & Ed & Bd).
  exists (((a * 16 + b) * 16 + c) * 16 + d)%N.
  unfold hex4, _u_repl, int16. cbn [snd fst int16_digits].
  rewrite Ea, Eb, Ec, Ed. split; [reflexivity|].
  cbn [obind]. unfold chr.
  replace (16 * (16 * (16 * (16 * 0 + a) + b) + c) + d)%N
    with (((a * 16 + b) * 16 + c) * 16 + d)%N by lia.
  destruct (N.leb_spec (((a * 16 + b) * 16 + c) * 16 + d) 1114111) as [Hle|Hgt];
    [reflexivity | lia].
Qed.

Lemma u_repl_returns m : exists x, _u_repl m = Return x.
Proof.
  unfold _u_repl.
  destruct (obind (int16 (snd m)) (fun n => obind (chr n) (fun c => Return [c])));
    simpl; eauto.
Qed.

Lemma sub_from_returns p s : forall skip, exists t, sub_from p _u_repl skip s = Return t.
Proof.
  induction s as [|c s IH]; intros skip; simpl; [eauto|].
  destruct skip as [|k]; [|apply IH].
  destruct (match_here p (c :: s)) as [[w g]|].
  - destruct (u_repl_returns (w, g)) as [x ->].
    destruct (IH (length w - 1)) as [t ->]. simpl. eauto.
  - destruct (IH 0) as [t ->]. simpl. eauto.
Qed.

Lemma normalize_body_returns L raw : exists s, normalize_body L raw = Return s.
Proof.
  unfold normalize_body, re_sub.
  match goal with |- context [sub_from re_u_double _u_repl 0 ?x] =>
    destruct (sub_from_returns re_u_double x 0) as [s1 ->] end.
  cbn [obind].
  destruct (sub_from_returns re_u_single s1 0) as [s2 ->].
  cbn [obind]. destruct (html_unescape L s2); cbn [obind try_except]; eauto.
Qed.

Lemma normalize_returns L raw : exists s, _normalize_found_url L raw = Return s.
Proof.
  unfold _normalize_found_url.
  destruct (normalize_body_returns L raw) as [s ->]. simpl. eauto.
Qed.

(** What the two escape patterns match at the start of a text. *)
Lemma firstn_cons_prefix (a b : str) c :
  firstn (length (c :: a ++ b) - length b) (c :: a ++ b) = c :: a.
Proof. apply (firstn_prefix (c :: a) b). Qed.

Lemma match_here_u_double s :
  match_here re_u_double s =
  if startswith s [backslash; backslash; ch "u"] then
    match skipn 3 s with
    | h1 :: h2 :: h3 :: h4 :: _ =>
        if is_hex h1 && is_hex h2 && is_hex h3 && is_hex h4
        then Some (firstn 7 s, [h1; h2; h3; h4]) else None
    | _ => None
    end
  else None.
Proof.
  unfold match_here, re_u_double. cbn [p_before p_group p_after seq_of].
  change backslash with (ch "\").
  destruct s as [|c1 [|c2 [|c3 s1]]]; try reflexivity;
    cbn [bt lit startswith skipn];
    destruct (char_eqb (ch "\") c1); cbn [andb]; try reflexivity;
    destruct (char_eqb (ch "\") c2); cbn [andb]; try reflexivity;
    destruct (char_eqb (ch "u") c3); cbn [andb]; try reflexivity.
  destruct s1 as [|h1 [|h2 [|h3 [|h4 s2]]]]; cbn [startswith];
    repeat match goal with
           | |- context [is_hex ?h] => destruct (is_hex h); cbn [andb]
           end; try reflexivity.
  change (c1 :: c2 :: c3 :: h1 :: h2 :: h3 :: h4 :: s2)
    with (c1 :: [c2; c3; h1; h2; h3; h4] ++ s2).
  change (h1 :: h2 :: h3 :: h4 :: s2) with (h1 :: [h2; h3; h4] ++ s2).
  rewrite !firstn_cons_prefix. reflexivity.
Qed.

Lemma match_here_u_single s :
  match_here re_u_single s =
  if startswith s [backslash; ch "u"] then
    match skipn 2 s with
    | h1 :: h2 :: h3 :: h4 :: _ =>
        if is_hex h1 && is_hex h2 && is_hex h3 && is_hex h4
        then Some (firstn 6 s, [h1; h2; h3; h4]) else None
    | _ => None
    end
  else None.
Proof.
  unfold match_here, re_u_single. cbn [p_before p_group p_after seq_of].
  change backslash with (ch "\").
  destruct s as [|c1 [|c2 s1]]; try reflexivity;
    cbn [bt lit startswith skipn];
    destruct (char_eqb (ch "\") c1); cbn [andb]; try reflexivity;
    destruct (char_eqb (ch "u") c2); cbn [andb]; try reflexivity.
  destruct s1 as [|h1 [|h2 [|h3 [|h4 s2]]]]; cbn [startswith];
    repeat match goal with
           | |- context [is_hex ?h] => destruct (is_hex h); cbn [andb]
           end; try reflexivity.
  change (c1 :: c2 :: h1 :: h2 :: h3 :: h4 :: s2)
    with (c1 :: [c2; h1; h2; h3; h4] ++ s2).
  change (h1 :: h2 :: h3 :: h4 :: s2) with (h1 :: [h2; h3; h4] ++ s2).
  rewrite !firstn_cons_prefix. reflexivity.
Qed.

Lemma hex4_digits h1 h2 h3 h4 r w :
  if is_hex h1 && is_hex h2 && is_hex h3 && is_hex h4
  then exists n, hex4 (h1 :: h2 :: h3 :: h4 :: r) = Some n
                 /\ _u_repl (w, [h1; h2; h3; h4]) = Return [n]
  else hex4 (h1 :: h2 :: h3 :: h4 :: r) = None.
Proof.
  destruct (is_hex h1) eqn:H1; cbn [andb].
  2:{ unfold hex4. now rewrite (hex_value_not_hex _ H1). }
  destruct (is_hex h2) eqn:H2; cbn [andb].
  2:{ unfold hex4. rewrite (hex_value_not_hex _ H2). now destruct (hex_value h1). }
  destruct (is_hex h3) eqn:H3; cbn [andb].
  2:{ unfold hex4. rewrite (hex_value_not_hex _ H3).
      now destruct (hex_value h1), (hex_value h2). }
  destruct (is_hex h4) eqn:H4.
  2:{ unfold hex4. rewrite (hex_value_not_hex _ H4).
      now destruct (hex_value h1), (hex_value h2), (hex_value h3). }
  exact (u_repl_hex4 w h1 h2 h3 h4 H1 H2 H3 H4).
Qed.

(** The substitution of [re.sub] with [_u_repl] is the decoding of the
    escapes: it never raises, and it replaces what the specification says. *)
Lemma sub_decodes p prefix :
  (forall s,
     match_here p s =
     if startswith s prefix then
       match skipn (length prefix) s with
       | h1 :: h2 :: h3 :: h4 :: _ =>
           if is_hex h1 && is_hex h2 && is_hex h3 && is_hex h4
           then Some (firstn (length prefix + 4) s, [h1; h2; h3; h4]) else None
       | _ => None
       end
     else None) ->
  forall s skip, sub_from p _u_repl skip s = Return (decode_from prefix skip s).
Proof.
  intros Hp. induction s as [|c s IH]; intros skip; [reflexivity|].
  cbn [sub_from decode_from]. destruct skip as [|k]; [|apply IH].
  rewrite Hp. destruct (startswith (c :: s) prefix) eqn:Hs.
  - destruct (skipn (length prefix) (c :: s)) as [|h1 [|h2 [|h3 [|h4 r]]]] eqn:Hk;
      try (rewrite IH; reflexivity).
    pose proof (hex4_digits h1 h2 h3 h4 r (firstn (length prefix + 4) (c :: s))) as Hd.
    destruct (is_hex h1 && is_hex h2 && is_hex h3 && is_hex h4).
    + destruct Hd as (n & Hn & Hu). rewrite Hn. setoid_rewrite Hu. cbn [obind].
      assert (Hlen : length (firstn (length prefix + 4) (c :: s)) - 1 = length prefix + 3).
      { rewrite length_firstn.
        pose proof (length_skipn (length prefix) (c :: s)) as Hl.
        rewrite Hk in Hl. cbn [length] in *. lia. }
      rewrite Hlen, IH. reflexivity.
    + rewrite Hd, IH. reflexivity.
  - rewrite IH. reflexivity.
Qed.

Lemma re_sub_u_double s :
  re_sub re_u_double _u_repl s = Return (decode_escapes [backslash; backslash; ch "u"] s).
Proof. apply (sub_decodes re_u_double _ match_here_u_double). Qed.

Lemma re_sub_u_single s :
  re_sub re_u_single _u_repl s = Return (decode_escapes [backslash; ch "u"] s).
Proof. apply (sub_decodes re_u_single _ match_here_u_single). Qed.

(** The normalizer is the pipeline of the seven stages applied to the
    trimmed input. *)
Lemma normalize_is_pipeline L raw :
  _normalize_found_url L raw = Return (normalize_spec L (strip raw)).
Proof.
  unfold _normalize_found_url, normalize_body, normalize_spec, unescape_entities.
  rewrite re_sub_u_double. cbn [obind]. rewrite re_sub_u_single. cbn [obind].
  destruct (html_unescape L _); reflexivity.
Qed.



(** C6 as stated fails: on the escaped URL with a decimal reference of
    4301 digits in its query string, decoding the entities raises, and
    the normalizer returns the URL with its slashes unescaped, which is not
    the input. *)
Lemma normalize_error_keeps_cleaned_text :
  html_unescape limit_lib unescaped_long_url
    = Raise (ValueError
               (ustr "Exceeds the limit (4300 digits) for integer string conversion"))
  /\ _normalize_found_url limit_lib escaped_long_url = Return unescaped_long_url
  /\ str_eqb unescaped_long_url escaped_long_url = false.
Proof. repeat split; vm_compute; reflexivity. Qed.

(** C5 (amended).  The normalizer first trims the input and then applies
    the seven stages in the order of the specification: trailing
    backslash, [\/] and the escaped quote, doubled backslashes,
    double-escaped and single-escaped code points, HTML entities, trim.
    On the escaped URL of the specification it yields the clean one. *)
Theorem normalize_trims_then_pipeline L raw :
  _normalize_found_url L raw = Return (normalize_spec L (strip raw))
  /\ _normalize_found_url L escaped_url = Return clean_url.
Proof.
  split; [apply normalize_is_pipeline|].
  rewrite normalize_is_pipeline. vm_compute. reflexivity.
Qed.

(** C5 as stated fails: on [a], a backslash and a space, the code trims
    first and then drops the backslash, whereas the seven stages alone keep
    the backslash, which is not at the end when stage 1 looks. *)
Lemma normalize_not_the_bare_pipeline :
  _normalize_found_url example_lib backslash_space = Return (ustr "a")
  /\ normalize_spec example_lib backslash_space = ustr "a\".
Proof. split; vm_compute; reflexivity. Qed.

Lemma lstrip_head s :
  lstrip s = [] \/ exists c t, lstrip s = c :: t /\ isspace c = false.
Proof.
  induction s as [|c s IH]; simpl; auto.
  destruct (isspace c) eqn:H; eauto.
Qed.

Lemma lstrip_fixed c t : isspace c = false -> lstrip (c :: t) = c :: t.
Proof. intros H. simpl. now rewrite H. Qed.

Lemma lstrip_idem s : lstrip (lstrip s) = lstrip s.
Proof.
  destruct (lstrip_head s) as [->|(c & t & -> & H)]; [reflexivity|].
  now apply lstrip_fixed.
Qed.

Lemma lstrip_snoc a c : isspace c = false -> exists x, lstrip (a ++ [c]) = x ++ [c].
Proof.
  intros H. induction a as [|b a [x IH]]; simpl.
  - rewrite H. now exists [].
  - destruct (isspace b); [eauto|]. now exists (b :: a).
Qed.

Lemma rstrip_idem s : rstrip (rstrip s) = rstrip s.
Proof. unfold rstrip. now rewrite rev_involutive, lstrip_idem. Qed.

Lemma strip_idem s : strip (strip s) = strip s.
Proof.
  unfold strip. destruct (lstrip_head s) as [->|(c & t & -> & H)]; [reflexivity|].
  assert (Hr : exists y, rstrip (c :: t) = c :: y).
  { unfold rstrip. simpl rev. destruct (@lstrip_snoc (rev t) c H) as [x ->].
    rewrite rev_app_distr. simpl. eauto. }
  destruct Hr as [y Hy]. rewrite Hy, (@lstrip_fixed c y H), <- Hy. apply rstrip_idem.
Qed.

Lemma contains_app c a b : contains c (a ++ b) = contains c a || contains c b.
Proof. apply existsb_app. Qed.

Lemma contains_rev c s : contains c (rev s) = contains c s.
Proof.
  induction s as [|x s IH]; [reflexivity|].
  simpl rev. rewrite contains_app, IH. simpl.
  rewrite orb_false_r. apply orb_comm.
Qed.

Lemma endswith_absent c s : contains c s = false -> endswith s [c] = false.
Proof.
  intros H. unfold endswith. rewrite <- contains_rev in H. simpl rev.
  destruct (rev s) as [|x r]; [reflexivity|]. simpl in *.
  apply orb_false_elim in H as [-> _]. reflexivity.
Qed.

Lemma replace_absent a old new s :
  contains a s = false -> replace (a :: old) new s = s.
Proof.
  unfold replace. induction s as [|c s IH]; [reflexivity|]. simpl.
  intros H. apply orb_false_elim in H as [Hc Hs]. rewrite Hc. simpl.
  now rewrite IH.
Qed.

Lemma decode_absent a prefix s :
  contains a s = false -> decode_escapes (a :: prefix) s = s.
Proof.
  unfold decode_escapes. induction s as [|c s IH]; [reflexivity|].
  cbn [decode_from startswith contains existsb].
  intros H. apply orb_false_elim in H as [Hc Hs]. rewrite Hc. simpl.
  now rewrite IH.
Qed.

(** A text without backslash and ampersand is normalized by trimming. *)
Lemma normalize_clean L s :
  contains backslash s = false -> contains (ch "&") s = false ->
  normalize_spec L s = strip s.
Proof.
  intros Hb Ha. unfold normalize_spec, strip_trailing_backslash,
    unescape_slash_quote, collapse_backslashes, unescape_entities, html_unescape.
  rewrite endswith_absent by assumption. simpl andb. cbv iota.
  rewrite (@replace_absent backslash [ch "/"] [ch "/"] s Hb).
  rewrite (@replace_absent backslash [dquote] [dquote] s Hb).
  rewrite (@replace_absent backslash [backslash] [backslash] s Hb).
  rewrite (@decode_absent backslash [backslash; ch "u"] s Hb).
  rewrite (@decode_absent backslash [ch "u"] s Hb).
  rewrite Ha. reflexivity.
Qed.

(** C7 (amended).  On a clean URL, a text without backslash and
    ampersand, the normalizer does nothing more: whenever the normalizer's
    result is such a text, normalizing it again returns it unchanged. *)
Theorem normalize_idempotent_on_clean L x y :
  _normalize_found_url L x = Return y ->
  contains backslash y = false ->
  contains (ch "&") y = false ->
  _normalize_found_url L y = Return y.
Proof.
  rewrite !normalize_is_pipeline. intros [= Hy] Hb Ha.
  assert (Hs : strip y = y).
  { rewrite <- Hy. unfold normalize_spec. apply strip_idem. }
  rewrite Hs, normalize_clean by assumption. now rewrite Hs.
Qed.

Lemma normalize_idempotent_on_clean_witness :
  _normalize_found_url example_lib escaped_url = Return clean_url
  /\ contains backslash clean_url = false
  /\ contains (ch "&") clean_url = false
  /\ _normalize_found_url example_lib clean_url = Return clean_url.
Proof.
  assert (H1 : _normalize_found_url example_lib escaped_url = Return clean_url)
    by (vm_compute; reflexivity).
  assert (H2 : contains backslash clean_url = false) by reflexivity.
  assert (H3 : contains (ch "&") clean_url = false) by reflexivity.
  exact (conj H1 (conj H2 (conj H3
           (@normalize_idempotent_on_clean example_lib escaped_url clean_url H1 H2 H3)))).
Defined.

(** C7 as stated fails: four backslashes are normalized to two, and two
    to one. *)
Lemma normalize_not_idempotent :
  _normalize_found_url example_lib four_backslashes
    = Return (ustr "a" ++ [backslash; backslash] ++ ustr "b")
  /\ _normalize_found_url example_lib (ustr "a" ++ [backslash; backslash] ++ ustr "b")
    = Return (ustr "a" ++ [backslash] ++ ustr "b").
Proof. split; vm_compute; reflexivity. Qed.

(* ================================================================= *)
(** ** The resolver's trace *)


Lemma resolve_without_url_or_id_witness :
  resolve_to_glb_url example_lib net_timeout plain_input []
    = ([], Raise (ValueError guidance))
  /\ guidance <> [].
Proof.
  apply (@resolve_without_url_or_id example_lib net_timeout plain_input []).
  - vm_compute. reflexivity.
  - apply re_findall_nil. vm_compute. reflexivity.
Defined.

Section Trace.

Variable L : PyLib.
Variable net : network.

Lemma fs_ret A (a : A) : fetch_safe net (ret a).
Proof.
  intros tr0 tr o [= <- <-]. exists []. split; [now rewrite app_nil_r|].
  intros [|? ?] ? ? ? ?; discriminate.
Qed.

Lemma fs_lift A (x : outcome A) : fetch_safe net (lift x).
Proof.
  intros tr0 tr o [= <- <-]. exists []. split; [now rewrite app_nil_r|].
  intros [|? ?] ? ? ? ?; discriminate.
Qed.

Lemma fs_log msg : fetch_safe net (log msg).
Proof.
  intros tr0 tr o [= <- <-]. exists [EvLog msg]. split; [reflexivity|].
  intros [|? [|? ?]] ? ? ? ?; discriminate.
Qed.

Lemma fs_fetch url : fetch_safe net (fetch net url).
Proof.
  intros tr0 tr o [= <- <-]. exists [EvGet url]. split; [reflexivity|].
  intros [|ev0 [|ev1 pre']] url' post e Hs; try discriminate.
  injection Hs as -> <-. rewrite app_nil_r. intros ->. auto.
Qed.

Lemma fs_bind A B (m : M A) (f : A -> M B) :
  fetch_safe net m -> (forall a, fetch_safe net (f a)) -> fetch_safe net (bind m f).
Proof.
  intros Hm Hf tr0 tr o. unfold bind.
  destruct (m tr0) as [tr1 [a|e1]] eqn:Em.
  - intros Ef. destruct (Hm _ _ _ Em) as (evs1 & -> & H1).
    destruct (Hf a _ _ _ Ef) as (evs2 & -> & H2).
    exists (evs1 ++ evs2). split; [now rewrite app_assoc|].
    intros pre url post e Hs Hnet.
    apply app_eq_app in Hs as [l [[-> Hl]|[-> Hl]]].
    + destruct l as [|x l].
      * rewrite app_nil_r in *. simpl in Hl. apply (H2 [] url post e); auto.
        now rewrite app_nil_r.
      * injection Hl as <- ->.
        destruct (H1 pre url l e eq_refl Hnet) as [_ Habs]. discriminate.
    + rewrite app_assoc in Hnet. eapply H2; eauto.
  - intros [= <- <-]. destruct (Hm _ _ _ Em) as (evs1 & -> & H1).
    exists evs1. split; [reflexivity|].
    intros pre url post e Hs Hnet.
    destruct (H1 pre url post e Hs Hnet) as [-> [= ->]]. auto.
Qed.

Lemma fs_return_normalized found : fetch_safe net (return_normalized L found).
Proof.
  unfold return_normalized. apply fs_bind; [apply fs_lift|]. intros norm.
  apply fs_bind; [|intros; apply fs_ret].
  destruct (negb (str_eqb norm found)); [apply fs_log | apply fs_ret].
Qed.

Lemma fs_scan url : fetch_safe net (scan_page_for_glb L net url).
Proof.
  unfold scan_page_for_glb. apply fs_bind; [apply fs_log|]. intros _.
  apply fs_bind; [apply fs_fetch|]. intros r.
  destruct (re_findall re_absolute (r_text r)); [|apply fs_return_normalized].
  destruct (re_findall re_root_relative (r_text r)).
  - destruct (re_findall re_attribute (r_text r)); [apply fs_ret|].
    apply fs_bind; [apply fs_lift | intros; apply fs_return_normalized].
  - apply fs_bind; [apply fs_lift | intros; apply fs_return_normalized].
Qed.

Lemma fs_resolved u : fetch_safe net (resolved L u).
Proof.
  unfold resolved. apply fs_bind; [apply fs_lift | intros; apply fs_ret].
Qed.

Lemma fs_resolve input : fetch_safe net (resolve_to_glb_url L net input).
Proof.
  unfold resolve_to_glb_url.
  destruct (is_direct_glb L (strip input)); [apply fs_resolved|].
  apply fs_bind.
  - destruct (_is_url L (strip input)); [apply fs_scan | apply fs_ret].
  - intros found. destruct (truthy found); [apply fs_resolved|].
    destruct (_extract_model_id (strip input)); [|apply fs_lift].
    apply fs_bind; [apply fs_scan|]. intros found'.
    destruct (truthy found'); [apply fs_resolved | apply fs_lift].
Qed.

(** C3.  Whatever the input, a request of the resolution (of strategy 2
    or of strategy 3) that the network answers with an exception is the last
    event of the resolution, and the resolution raises that very exception:
    nothing is fetched, logged or tried after it, model id or not. *)
Theorem fetch_failure_ends_resolution input tr o pre url post e :
  resolve_to_glb_url L net input [] = (tr, o) ->
  tr = pre ++ EvGet url :: post ->
  net (length (gets pre)) url = Raise e ->
  post = [] /\ o = Raise e.
Proof.
  intros Hr Htr Hnet.
  destruct (fs_resolve input _ Hr) as (evs & Hevs & H). simpl in Hevs. subst evs.
  eapply H; eauto.
Qed.

End Trace.

Lemma fetch_failure_ends_resolution_witness :
  resolve_to_glb_url example_lib net_timeout page_input []
    = (fetch_events page_input, Raise Timeout)
  /\ _extract_model_id (strip page_input) = Some example_id
  /\ (@nil event = [] /\ @Raise Resolved Timeout = Raise Timeout).
Proof.
  assert (H : resolve_to_glb_url example_lib net_timeout page_input []
              = (fetch_events page_input, Raise Timeout))
    by (vm_compute; reflexivity).
  split; [exact H|]. split; [vm_compute; reflexivity|].
  exact (@fetch_failure_ends_resolution example_lib net_timeout page_input
           (fetch_events page_input) (Raise Timeout)
           [EvLog (msg_fetching page_input)] page_input [] Timeout
           H eq_refl eq_refl).
Defined.

(* ================================================================= *)
(** ** The suggested file name *)

Section FileName.

Variable L : PyLib.
Variable net : network.

Lemma nf_resolved u : names_its_file L (resolved L u).
Proof.
  intros tr tr' r H. apply resolved_spec in H as [_ [<- H]]. exact H.
Qed.

Lemma nf_raise e : names_its_file L (lift (Raise e)).
Proof. intros tr tr' r H. discriminate. Qed.

Lemma nf_bind A (m : M A) f :
  (forall a, names_its_file L (f a)) -> names_its_file L (bind m f).
Proof.
  intros Hf tr tr' r. unfold bind. destruct (m tr) as [tr1 [a|e]].
  - apply Hf.
  - discriminate.
Qed.

Lemma nf_resolve input : names_its_file L (resolve_to_glb_url L net input).
Proof.
  unfold resolve_to_glb_url.
  destruct (is_direct_glb L (strip input)); [apply nf_resolved|].
  apply nf_bind. intros found. destruct (truthy found); [apply nf_resolved|].
  destruct (_extract_model_id (strip input)); [|apply nf_raise].
  apply nf_bind. intros found'.
  destruct (truthy found'); [apply nf_resolved | apply nf_raise].
Qed.

Lemma ends_in_glb_app s : ends_in_glb (s ++ ustr ".glb") = true.
Proof. unfold ends_in_glb. rewrite lower_app. apply endswith_app. Qed.

(** C10 (amended).  The file name of every target the resolution returns
    is not empty: it is [model.glb] when the last segment of the URL's path
    is empty, the last segment itself when that ends in [.glb] (in any case
    of letters) or holds a dot, and the last segment with [.glb] appended
    otherwise.  So it ends in [.glb] when the last segment holds no dot or
    ends in [.glb] already. *)
Theorem suggested_filename input tr tr' r :
  resolve_to_glb_url L net input tr = (tr', Return r) ->
  exists u,
    urlparse L (glb_url r) = Return u
    /\ filename r =
       (if negb (nonempty (basename (path u))) then ustr "model.glb"
        else if ends_in_glb (basename (path u)) then basename (path u)
        else if contains (ch ".") (basename (path u)) then basename (path u)
        else basename (path u) ++ ustr ".glb")
    /\ filename r <> []
    /\ (contains (ch ".") (basename (path u)) = false
        \/ ends_in_glb (basename (path u)) = true ->
        ends_in_glb (filename r) = true).
Proof.
  intros H. apply nf_resolve in H. unfold _guess_filename_from_url in H.
  destruct (urlparse L (glb_url r)) as [u|e]; [|discriminate].
  exists u. split; [reflexivity|]. cbn [obind] in H. cbv zeta in H.
  injection H as H. unfold ends_in_glb. rewrite <- H. clear H.
  destruct (basename (path u)) as [|c seg] eqn:Hseg; cbn [nonempty negb].
  - repeat split; try reflexivity; discriminate.
  - destruct (endswith (lower (c :: seg)) (ustr ".glb")) eqn:Hg; cbn [negb].
    + repeat split; try discriminate. auto.
    + change 46%N with (ch ".").
      destruct (contains (ch ".") (c :: seg)) eqn:Hd; cbn [negb].
      * repeat split; try discriminate. intros [?|?]; discriminate.
      * repeat split; try discriminate. intros _.
        apply (ends_in_glb_app (c :: seg)).
Qed.

End FileName.

Lemma suggested_filename_witness :
  resolve_to_glb_url example_lib net_timeout direct_input []
    = ([], Return {| glb_url := strip direct_input; filename := ustr "x.glb" |})
  /\ exists u,
       urlparse example_lib (strip direct_input) = Return u
       /\ ustr "x.glb" =
          (if negb (nonempty (basename (path u))) then ustr "model.glb"
           else if ends_in_glb (basename (path u)) then basename (path u)
           else if contains (ch ".") (basename (path u)) then basename (path u)
           else basename (path u) ++ ustr ".glb")
       /\ ustr "x.glb" <> []
       /\ (contains (ch ".") (basename (path u)) = false
           \/ ends_in_glb (basename (path u)) = true ->
           ends_in_glb (ustr "x.glb") = true).
Proof.
  assert (H : resolve_to_glb_url example_lib net_timeout direct_input []
              = ([], Return {| glb_url := strip direct_input;
                               filename := ustr "x.glb" |}))
    by (vm_compute; reflexivity).
  split; [exact H|].
  exact (@suggested_filename example_lib net_timeout direct_input [] [] _ H).
Defined.

(** C10 as stated fails: a direct link whose path names a script and whose
    fragment ends in [.glb] is returned with the script's name, which does
    not end in [.glb]. *)
Lemma filename_without_glb :
  resolve_to_glb_url example_lib net_timeout script_url []
    = ([], Return {| glb_url := script_url; filename := ustr "get.php" |})
  /\ ends_in_glb (ustr "get.php") = false.
Proof. split; vm_compute; reflexivity. Qed.

(* ================================================================= *)
(** ** The page scrape *)

Section Scrape.

Variable L : PyLib.
Variable net : network.

Lemma gets_log tr msg : gets (tr ++ [EvLog msg]) = gets tr.
Proof. unfold gets. rewrite filter_app. simpl. apply app_nil_r. Qed.

(** What [scan_page_for_glb] does after a fetch that returned a page. *)
Lemma scan_after_fetch url tr r :
  net (length (gets tr)) url = Return r ->
  scan_page_for_glb L net url tr =
  match re_findall re_absolute (r_text r) with
  | c0 :: _ => return_normalized L c0
  | [] =>
      match re_findall re_root_relative (r_text r) with
      | r0 :: _ =>
          bind (lift (urljoin L (r_url r) r0)) (return_normalized L)
      | [] =>
          match re_findall re_attribute (r_text r) with
          | r0 :: _ =>
              bind (lift (urljoin L (r_url r) r0)) (return_normalized L)
          | [] => ret None
          end
      end
  end (tr ++ fetch_events url).
Proof.
  intros Hnet. unfold scan_page_for_glb, bind at 1 2, log, fetch.
  rewrite gets_log, Hnet. unfold fetch_events.
  now rewrite <- app_assoc.
Qed.

Lemma return_normalized_spec found tr :
  exists norm,
    _normalize_found_url L found = Return norm
    /\ return_normalized L found tr = (tr ++ norm_log found norm, Return (Some norm)).
Proof.
  destruct (normalize_returns L found) as (norm & Hn).
  exists norm. split; [exact Hn|].
  unfold return_normalized, bind, lift, norm_log. rewrite Hn.
  destruct (negb (str_eqb norm found)); unfold log, ret; simpl.
  - reflexivity.
  - now rewrite app_nil_r.
Qed.


Lemma found_none p s : ~ occurs p s -> re_findall p s = [].
Proof. apply re_findall_nil. Qed.


End Scrape.



(** The page of the specification's test: a root-relative [href] and no
    absolute link.  The resolution of the page's URL returns the link on
    the page's site, and the file name [m.glb]. *)
Example resolve_relative_link :
  resolve_to_glb_url example_lib net_example page_input []
  = (fetch_events page_input,
     Return {| glb_url := ustr "https://www.meshy.ai/assets/m.glb";
               filename := ustr "m.glb" |}).
Proof. vm_compute. reflexivity. Qed.

(* ================================================================= *)
(** ** Progress *)

Lemma pulse_range got : (0 <= pulse got <= 99)%Z.
Proof.
  unfold pulse.
  pose proof (Z.mod_pos_bound (got / (1024 * 1024)) 100 ltac:(lia)). lia.
Qed.

Lemma iter_content_unknown chunks :
  forall got reported,
    iter_content 0 got chunks reported
    = (reported ++ map pulse (received got chunks), Return tt).
Proof.
  induction chunks as [|n chunks IH]; intros got reported; simpl.
  - now rewrite app_nil_r.
  - destruct (n =? 0)%N; [apply IH|].
    rewrite IH, <- app_assoc. reflexivity.
Qed.

(** C9.  Without a declared length, the values reported while the stream
    delivers are [min(99, MiB received mod 100)] after every chunk that is
    not empty, each between 0 and 99, and the value reported last, after
    the stream has ended, is 100. *)
Theorem progress_unknown_length chunks :
  download_file None chunks = (map pulse (received 0 chunks) ++ [100%Z], Return tt)
  /\ Forall (fun v => (0 <= v <= 99)%Z) (map pulse (received 0 chunks))
  /\ last (fst (download_file None chunks)) 0%Z = 100%Z.
Proof.
  unfold download_file, declared_total. rewrite iter_content_unknown. simpl.
  repeat split.
  - apply Forall_forall. intros v Hv. apply in_map_iff in Hv as (g & <- & _).
    apply pulse_range.
  - apply last_last.
Qed.

Local Open Scope Z_scope.

(** Rounding a quotient on a grid finer than half the divisor never
    reaches the next integer. *)
Lemma round_half_even_floor a b K :
  0 <= a -> 0 < b -> 0 < K -> b < 2 * K ->
  round_half_even (a * K) b / K = a / b.
Proof.
  intros Ha Hb HK HbK.
  pose proof (Z.div_mod a b ltac:(lia)) as Ea.
  pose proof (Z.mod_pos_bound a b Hb) as Ra.
  pose proof (Z.div_mod (a * K) b ltac:(lia)) as Eq.
  pose proof (Z.mod_pos_bound (a * K) b Hb) as Rq.
  set (n := a / b) in *. set (r := a mod b) in *.
  unfold round_half_even.
  set (q := a * K / b) in *. set (p := (a * K) mod b) in *.
  assert (Hn : 0 <= n) by (apply Z.div_pos; lia).
  assert (Hlo : n * K <= q).
  { apply Z.div_le_lower_bound; [lia|]. nia. }
  assert (Hhi : q < (n + 1) * K).
  { apply Z.div_lt_upper_bound; [lia|]. nia. }
  assert (Hup : 2 * p >= b -> q + 1 < (n + 1) * K).
  { intros Hp. destruct (Z_lt_ge_dec (q + 1) ((n + 1) * K)) as [|Hge]; [assumption|].
    exfalso. assert (Hq : q = (n + 1) * K - 1) by lia.
    assert (Hr : (b - r) * K = b - p) by nia.
    assert (K <= b - p) by nia. lia. }
  assert (Hres : forall R, n * K <= R < (n + 1) * K -> R / K = n).
  { intros R HR. symmetry. apply (Z.div_unique_pos R K n (R - K * n)); lia. }
  destruct (2 * p <? b) eqn:E1; [apply Hres; lia|].
  apply Z.ltb_ge in E1.
  destruct (b <? 2 * p) eqn:E2; [apply Hres; lia|].
  destruct (Z.even q); apply Hres; lia.
Qed.

Lemma quotient_exponent_small a b :
  0 < a -> 0 < b -> a <= 100 * b -> quotient_exponent a b <= 6.
Proof.
  intros Ha Hb Hab. unfold quotient_exponent.
  pose proof (Z.log2_spec a Ha) as [La _].
  pose proof (Z.log2_spec b Hb) as [_ Lb].
  pose proof (Z.log2_nonneg a) as Na. pose proof (Z.log2_nonneg b) as Nb.
  set (la := Z.log2 a) in *. set (lb := Z.log2 b) in *.
  destruct (Z_le_gt_dec (la - lb) 6) as [Hd|Hd].
  - destruct (_ <? _); lia.
  - assert (Hmax1 : Z.max 0 (- (la - lb)) = 0) by lia.
    assert (Hmax2 : Z.max 0 (la - lb) = la - lb) by lia.
    rewrite Hmax1, Hmax2, Z.pow_0_r, Z.mul_1_r.
    destruct (a <? b * 2 ^ (la - lb)) eqn:E.
    + destruct (Z_le_gt_dec (la - lb) 7) as [Hd7|Hd7]; [lia|]. exfalso.
      assert (Hp : 2 ^ la = 2 ^ lb * 2 ^ (la - lb)).
      { rewrite <- Z.pow_add_r by lia. f_equal. lia. }
      assert (H256 : 2 ^ 8 <= 2 ^ (la - lb)) by (apply Z.pow_le_mono_r; lia).
      rewrite Z.pow_succ_r in Lb by lia.
      change (2 ^ 8) with 256 in H256.
      assert (0 < 2 ^ lb) by (apply Z.pow_pos_nonneg; lia). nia.
    + apply Z.ltb_ge in E. exfalso.
      assert (H128 : 2 ^ 7 <= 2 ^ (la - lb)) by (apply Z.pow_le_mono_r; lia).
      change (2 ^ 7) with 128 in H128. nia.
Qed.

(** Below [2^47] bytes the float division of the program is the floor
    division of the specification. *)
Lemma truediv_floor a b :
  0 <= a -> 0 < b -> b < 2 ^ 47 -> a <= 100 * b ->
  exists x, truediv a b = Return x /\ int_of_float x = a / b.
Proof.
  intros Ha Hb Hb47 Hab. unfold truediv.
  destruct (a =? 0) eqn:E0.
  - apply Z.eqb_eq in E0. subst a. exists (0, 0). split; [reflexivity|].
    simpl. now rewrite Z.div_0_l by lia.
  - apply Z.eqb_neq in E0.
    pose proof (@quotient_exponent_small a b ltac:(lia) Hb Hab) as He.
    set (e := quotient_exponent a b) in *.
    set (sh := Z.max (e - 52) (-1074)).
    assert (Hsh : -1074 <= sh <= -46) by (unfold sh; lia).
    assert (Hm1 : Z.max 0 (- sh) = - sh) by lia.
    assert (Hm2 : Z.max 0 sh = 0) by lia.
    rewrite Hm1, Hm2, Z.pow_0_r, Z.mul_1_r.
    assert (Hneg : (0 <=? sh) = false) by (apply Z.leb_gt; lia).
    rewrite Hneg. cbn [andb].
    eexists. split; [reflexivity|].
    unfold int_of_float. rewrite Hneg.
    assert (HK : 0 < 2 ^ (- sh)) by (apply Z.pow_pos_nonneg; lia).
    assert (H46 : 2 ^ 46 <= 2 ^ (- sh)) by (apply Z.pow_le_mono_r; lia).
    change (2 ^ 47) with (2 * 2 ^ 46) in Hb47.
    apply round_half_even_floor; lia.
Qed.

Lemma total_bytes_nonneg chunks : 0 <= total_bytes chunks.
Proof. induction chunks as [|n chunks IH]; simpl; lia. Qed.

(** Comparing [a / b] with [2^e], on any scale [2^M] that makes the
    exponents non-negative. *)
Lemma scaled_lt a b e M :
  0 <= M -> 0 <= M + e ->
  (a * 2 ^ Z.max 0 (- e) < b * 2 ^ Z.max 0 e <-> a * 2 ^ M < b * 2 ^ (M + e)).
Proof.
  intros HM HMe. destruct (Z_le_gt_dec 0 e) as [He|He].
  - rewrite (Z.max_l 0 (- e)), (Z.max_r 0 e), Z.pow_0_r, Z.mul_1_r by lia.
    rewrite Z.pow_add_r by lia.
    assert (0 < 2 ^ M) by (apply Z.pow_pos_nonneg; lia).
    rewrite (Z.mul_lt_mono_pos_r (2 ^ M) a (b * 2 ^ e)) by assumption.
    replace (b * 2 ^ e * 2 ^ M) with (b * (2 ^ M * 2 ^ e)) by ring. reflexivity.
  - rewrite (Z.max_r 0 (- e)), (Z.max_l 0 e), Z.pow_0_r, Z.mul_1_r by lia.
    assert (0 < 2 ^ (M + e)) by (apply Z.pow_pos_nonneg; lia).
    replace (2 ^ M) with (2 ^ (- e) * 2 ^ (M + e))
      by (rewrite <- Z.pow_add_r by lia; f_equal; lia).
    rewrite (Z.mul_lt_mono_pos_r (2 ^ (M + e)) (a * 2 ^ (- e)) b) by assumption.
    replace (a * (2 ^ (- e) * 2 ^ (M + e))) with (a * 2 ^ (- e) * 2 ^ (M + e)) by ring.
    reflexivity.
Qed.

(** [quotient_exponent a b] is the binary exponent of [a / b]. *)
Lemma quotient_exponent_spec a b N :
  0 < a -> 0 < b -> 0 <= N -> 0 <= N + quotient_exponent a b ->
  b * 2 ^ (N + quotient_exponent a b) <= a * 2 ^ N
  /\ a * 2 ^ N < b * 2 ^ (N + quotient_exponent a b + 1).
Proof.
  intros Ha Hb HN. unfold quotient_exponent.
  pose proof (Z.log2_spec a Ha) as [La1 La2].
  pose proof (Z.log2_spec b Hb) as [Lb1 Lb2].
  pose proof (Z.log2_nonneg a) as Na. pose proof (Z.log2_nonneg b) as Nb.
  set (la := Z.log2 a) in *. set (lb := Z.log2 b) in *.
  assert (HP : 0 < 2 ^ N) by (apply Z.pow_pos_nonneg; lia).
  destruct (a * 2 ^ Z.max 0 (- (la - lb)) <? b * 2 ^ Z.max 0 (la - lb)) eqn:T.
  - intros HNe. apply Z.ltb_lt in T.
    apply (proj1 (@scaled_lt a b (la - lb) N ltac:(lia) ltac:(lia))) in T.
    replace (N + (la - lb - 1) + 1) with (N + (la - lb)) by lia.
    split; [|exact T].
    assert (E : 2 ^ Z.succ lb * 2 ^ (N + (la - lb - 1)) = 2 ^ la * 2 ^ N).
    { rewrite <- !Z.pow_add_r by lia. f_equal. lia. }
    assert (0 < 2 ^ (N + (la - lb - 1))) by (apply Z.pow_pos_nonneg; lia).
    nia.
  - intros HNe. apply Z.ltb_ge in T.
    split.
    + destruct (Z_lt_ge_dec (a * 2 ^ N) (b * 2 ^ (N + (la - lb)))) as [Hlt|Hge];
        [|lia].
      apply (proj2 (@scaled_lt a b (la - lb) N ltac:(lia) ltac:(lia))) in Hlt. lia.
    + assert (E : 2 ^ Z.succ la * 2 ^ N = 2 ^ lb * 2 ^ (N + (la - lb) + 1)).
      { rewrite <- !Z.pow_add_r by lia. f_equal. lia. }
      assert (0 < 2 ^ (N + (la - lb) + 1)) by (apply Z.pow_pos_nonneg; lia).
      nia.
Qed.

(** A larger dividend has no smaller exponent. *)
Lemma quotient_exponent_mono a a' b :
  0 < a -> a <= a' -> 0 < b -> quotient_exponent a b <= quotient_exponent a' b.
Proof.
  intros Ha Haa Hb.
  set (e := quotient_exponent a b). set (e' := quotient_exponent a' b).
  destruct (Z_le_gt_dec e e') as [|Hgt]; [assumption|]. exfalso.
  set (N := Z.max 0 (- e')).
  assert (HN : 0 <= N) by (unfold N; lia).
  assert (HNe : 0 <= N + e) by (unfold N; lia).
  assert (HNe' : 0 <= N + e') by (unfold N; lia).
  destruct (@quotient_exponent_spec a b N Ha Hb HN HNe) as [Lo _].
  destruct (@quotient_exponent_spec a' b N ltac:(lia) Hb HN HNe') as [_ Hi].
  fold e in Lo. fold e' in Hi.
  assert (Hpow : 2 ^ (N + e' + 1) <= 2 ^ (N + e))
    by (apply Z.pow_le_mono_r; unfold N; lia).
  assert (0 < 2 ^ N) by (apply Z.pow_pos_nonneg; unfold N; lia).
  nia.
Qed.

(** On a grid [1 / K] with [K] even, the rounded quotient reaches the next
    integer exactly when the quotient is within half a grid step of it. *)
Lemma round_half_even_near a b K :
  0 <= a -> 0 < b -> 0 < K -> Z.even K = true ->
  round_half_even (a * K) b / K
  = if (b - a mod b) * (2 * K) <=? b then a / b + 1 else a / b.
Proof.
  intros Ha Hb HK Hev.
  pose proof (Z.div_mod a b ltac:(lia)) as Ea.
  pose proof (Z.mod_pos_bound a b Hb) as Ra.
  pose proof (Z.div_mod (a * K) b ltac:(lia)) as Eq.
  pose proof (Z.mod_pos_bound (a * K) b Hb) as Rq.
  set (n := a / b) in *. set (r := a mod b) in *.
  unfold round_half_even.
  set (q := a * K / b) in *. set (p := (a * K) mod b) in *.
  assert (Hn : 0 <= n) by (apply Z.div_pos; lia).
  assert (Hlo : n * K <= q).
  { apply Z.div_le_lower_bound; [lia|]. nia. }
  assert (Hhi : q < (n + 1) * K).
  { apply Z.div_lt_upper_bound; [lia|]. nia. }
  assert (Hres : forall R, n * K <= R < (n + 1) * K -> R / K = n).
  { intros R HR. symmetry. apply (Z.div_unique_pos R K n (R - K * n)); lia. }
  assert (Hid : (b - r) * K = b * ((n + 1) * K - 1 - q) + (b - p)) by nia.
  destruct ((b - r) * (2 * K) <=? b) eqn:Hnear.
  - apply Z.leb_le in Hnear.
    assert (Hq : q = (n + 1) * K - 1).
    { destruct (Z_lt_ge_dec q ((n + 1) * K - 1)) as [Hlt|Hge]; [|lia].
      exfalso. assert (1 <= (n + 1) * K - 1 - q) by lia. nia. }
    assert (Hp : 2 * p >= b) by nia.
    assert (Hodd : Z.even q = false).
    { rewrite Hq, Z.even_sub, Z.even_mul, Hev, orb_true_r. reflexivity. }
    assert (Hnext : (q + 1) / K = n + 1).
    { symmetry. apply (Z.div_unique_pos (q + 1) K (n + 1) 0); lia. }
    destruct (2 * p <? b) eqn:E1; [apply Z.ltb_lt in E1; lia|].
    destruct (b <? 2 * p); [exact Hnext|].
    rewrite Hodd. exact Hnext.
  - apply Z.leb_gt in Hnear.
    assert (Hup : 2 * p >= b -> q + 1 < (n + 1) * K).
    { intros Hp. destruct (Z_lt_ge_dec (q + 1) ((n + 1) * K)) as [|Hge]; [assumption|].
      exfalso. assert (Hq : q = (n + 1) * K - 1) by lia. nia. }
    destruct (2 * p <? b) eqn:E1; [apply Hres; lia|].
    apply Z.ltb_ge in E1.
    destruct (b <? 2 * p); [apply Hres; lia|].
    destruct (Z.even q); apply Hres; lia.
Qed.

(** The value the program reports for [a = got * 100] and [b = total]:
    the floor of the quotient, or one more when the quotient is within
    half a unit in the last place of the next integer. *)
Lemma float_quotient a b :
  0 < a -> 0 < b -> a <= 100 * b ->
  exists k x,
    46 <= k
    /\ k = - Z.max (quotient_exponent a b - 52) (-1074)
    /\ truediv a b = Return x
    /\ int_of_float x
       = if (b - a mod b) * (2 * 2 ^ k) <=? b then a / b + 1 else a / b.
Proof.
  intros Ha Hb Hab. unfold truediv.
  assert (E0 : (a =? 0) = false) by (apply Z.eqb_neq; lia). rewrite E0.
  pose proof (@quotient_exponent_small a b Ha Hb Hab) as He.
  set (e := quotient_exponent a b) in *.
  set (sh := Z.max (e - 52) (-1074)).
  assert (Hsh : -1074 <= sh <= -46) by (unfold sh; lia).
  assert (Hm1 : Z.max 0 (- sh) = - sh) by lia.
  assert (Hm2 : Z.max 0 sh = 0) by lia.
  rewrite Hm1, Hm2, Z.pow_0_r, Z.mul_1_r.
  assert (Hneg : (0 <=? sh) = false) by (apply Z.leb_gt; lia).
  rewrite Hneg. cbn [andb].
  exists (- sh). eexists. repeat split; try reflexivity; [lia|].
  unfold int_of_float. rewrite Hneg.
  assert (HK : 0 < 2 ^ (- sh)) by (apply Z.pow_pos_nonneg; lia).
  apply round_half_even_near; try lia.
  replace (- sh) with (Z.succ (- sh - 1)) by lia.
  rewrite Z.pow_succ_r by lia. rewrite Z.even_mul. reflexivity.
Qed.

Lemma float_percent_bounds total got :
  0 < total -> 0 < got -> got <= total ->
  floor_percent total got <= float_percent total got <= floor_percent total got + 1
  /\ float_percent total got <= 100.
Proof.
  intros Ht Hg Hgt. unfold float_percent, floor_percent.
  destruct (@float_quotient (got * 100) total) as (k & x & Hk & _ & -> & ->);
    try lia.
  assert (HK : 1 <= 2 ^ k).
  { change 1 with (2 ^ 0). apply Z.pow_le_mono_r; lia. }
  pose proof (Z.mod_pos_bound (got * 100) total Ht) as Hr.
  pose proof (Z.div_mod (got * 100) total ltac:(lia)) as Ed.
  assert (Hn : got * 100 / total <= 100) by (apply Z.div_le_upper_bound; lia).
  destruct (_ <=? _) eqn:E; [|lia].
  apply Z.leb_le in E. split; [lia|].
  destruct (Z_le_gt_dec (got * 100 / total) 99) as [|Hgt100]; [lia|].
  exfalso. assert (got * 100 / total = 100) by lia. nia.
Qed.

Lemma float_percent_mono total got got' :
  0 < total -> 0 < got -> got <= got' -> got' <= total ->
  float_percent total got <= float_percent total got'.
Proof.
  intros Ht Hg Hgg Hgt. unfold float_percent.
  destruct (@float_quotient (got * 100) total) as (k & x & Hk & Ek & -> & ->);
    try lia.
  destruct (@float_quotient (got' * 100) total) as (k' & x' & Hk' & Ek' & -> & ->);
    try lia.
  pose proof (@quotient_exponent_mono (got * 100) (got' * 100) total
                ltac:(lia) ltac:(lia) Ht) as He.
  assert (Hkk : k' <= k) by lia.
  assert (HKK : 2 ^ k' <= 2 ^ k) by (apply Z.pow_le_mono_r; lia).
  assert (HK' : 0 < 2 ^ k') by (apply Z.pow_pos_nonneg; lia).
  pose proof (Z.mod_pos_bound (got * 100) total Ht) as Hr.
  pose proof (Z.mod_pos_bound (got' * 100) total Ht) as Hr'.
  pose proof (Z.div_mod (got * 100) total ltac:(lia)) as Ed.
  pose proof (Z.div_mod (got' * 100) total ltac:(lia)) as Ed'.
  assert (Hn : got * 100 / total <= got' * 100 / total)
    by (apply Z.div_le_mono; lia).
  set (n := got * 100 / total) in *. set (n' := got' * 100 / total) in *.
  set (r := (got * 100) mod total) in *. set (r' := (got' * 100) mod total) in *.
  destruct ((total - r) * (2 * 2 ^ k) <=? total) eqn:E;
    destruct ((total - r') * (2 * 2 ^ k') <=? total) eqn:E'; try lia.
  apply Z.leb_le in E. apply Z.leb_gt in E'.
  destruct (Z_lt_ge_dec n n') as [|Hge]; [lia|]. exfalso.
  assert (n = n') by lia. assert (r <= r') by nia.
  assert ((total - r') * (2 * 2 ^ k') <= (total - r) * (2 * 2 ^ k)) by nia.
  lia.
Qed.

Lemma float_percent_exact total got :
  0 < total -> total < 2 ^ 47 -> 0 < got -> got <= total ->
  float_percent total got = floor_percent total got.
Proof.
  intros Ht H47 Hg Hgt. unfold float_percent, floor_percent.
  destruct (@truediv_floor (got * 100) total) as (x & -> & ->); lia.
Qed.

Lemma iter_content_known total chunks :
  0 < total ->
  forall got reported,
    0 <= got -> got + total_bytes chunks <= total ->
    iter_content total got chunks reported
    = (reported ++ map (float_percent total) (received got chunks), Return tt).
Proof.
  intros Ht. induction chunks as [|n chunks IH]; intros got reported Hg Hs.
  - simpl. now rewrite app_nil_r.
  - cbn [iter_content received total_bytes fold_right] in *.
    fold (total_bytes chunks) in Hs.
    pose proof (total_bytes_nonneg chunks) as Hc.
    destruct (n =? 0)%N eqn:En.
    + apply N.eqb_eq in En. subst n. apply IH; [lia|]. simpl in Hs. lia.
    + apply N.eqb_neq in En.
      assert (Hlt : (0 <? total) = true) by (apply Z.ltb_lt; lia).
      rewrite Hlt.
      destruct (@float_quotient ((got + Z.of_N n) * 100) total)
        as (k & x & _ & _ & Hx & _); try lia.
      assert (Hfp : float_percent total (got + Z.of_N n) = int_of_float x)
        by (unfold float_percent; now rewrite Hx).
      rewrite Hx, IH by lia. cbn [map]. rewrite Hfp, <- app_assoc. reflexivity.
Qed.

Lemma received_range chunks :
  forall got g,
    0 <= got -> In g (received got chunks) ->
    got < g <= got + total_bytes chunks.
Proof.
  induction chunks as [|n chunks IH]; intros got g Hg Hin; [destruct Hin|].
  cbn [received total_bytes fold_right] in *. fold (total_bytes chunks).
  pose proof (total_bytes_nonneg chunks) as Hc.
  destruct (n =? 0)%N eqn:En.
  - apply N.eqb_eq in En. subst n. apply IH in Hin; lia.
  - apply N.eqb_neq in En. destruct Hin as [<-|Hin]; [lia|].
    apply IH in Hin; lia.
Qed.

Lemma percent_nondecreasing total chunks :
  0 < total ->
  forall got lo,
    0 <= got -> got + total_bytes chunks <= total -> lo <= 100 ->
    (forall g, got < g -> g <= total -> lo <= float_percent total g) ->
    nondecreasing (lo :: map (float_percent total) (received got chunks) ++ [100]).
Proof.
  intros Ht. induction chunks as [|n chunks IH]; intros got lo Hg Hs Hlo Hmin.
  - simpl. apply nd_cons; [exact Hlo | apply nd_one].
  - cbn [received total_bytes fold_right] in *. fold (total_bytes chunks) in Hs.
    pose proof (total_bytes_nonneg chunks) as Hc.
    destruct (n =? 0)%N eqn:En.
    + apply N.eqb_eq in En. subst n. apply IH; auto; simpl in Hs; lia.
    + apply N.eqb_neq in En. cbn [map app].
      apply nd_cons; [apply Hmin; lia|].
      apply IH; try lia.
      * apply float_percent_bounds; lia.
      * intros g Hg1 Hg2. apply float_percent_mono; lia.
Qed.

Lemma nondecreasing_tail x l : nondecreasing (x :: l) -> nondecreasing l.
Proof. inversion 1; subst; [constructor | assumption]. Qed.

(** C8 (amended).  For a declared length that is positive, delivered
    exactly, the value reported after every chunk that is not empty is
    [int(received * 100 / total)] with the division of floats: it is
    [floor(received * 100 / total)] or one more, and it is the floor for
    every length below [2^47] bytes.  The values reported, the final one
    included, never decrease, and the final one is 100. *)
Theorem progress_known_length total chunks :
  0 < total -> total_bytes chunks = total ->
  download_file (Some total) chunks
    = (map (float_percent total) (received 0 chunks) ++ [100], Return tt)
  /\ Forall (fun got => floor_percent total got <= float_percent total got
                        <= floor_percent total got + 1)
            (received 0 chunks)
  /\ (total < 2 ^ 47 ->
      map (float_percent total) (received 0 chunks)
      = map (floor_percent total) (received 0 chunks))
  /\ nondecreasing (fst (download_file (Some total) chunks))
  /\ last (fst (download_file (Some total) chunks)) 0 = 100.
Proof.
  intros Ht Hsum.
  assert (H : download_file (Some total) chunks
              = (map (float_percent total) (received 0 chunks) ++ [100], Return tt)).
  { unfold download_file, declared_total.
    rewrite (@iter_content_known total chunks Ht 0 []) by lia. reflexivity. }
  assert (Hrange : forall g, In g (received 0 chunks) -> 0 < g <= total).
  { intros g Hin. apply received_range in Hin; lia. }
  rewrite H. cbn [fst]. repeat split.
  - apply Forall_forall. intros g Hin. apply Hrange in Hin.
    apply float_percent_bounds; lia.
  - intros H47. apply map_ext_in. intros g Hin. apply Hrange in Hin.
    apply float_percent_exact; lia.
  - apply nondecreasing_tail with (x := 0).
    apply percent_nondecreasing; try lia.
    intros g Hg1 Hg2.
    pose proof (@float_percent_bounds total g Ht Hg1 Hg2) as [[Hfl _] _].
    assert (0 <= floor_percent total g)
      by (unfold floor_percent; apply Z.div_pos; lia).
    lia.
  - apply last_last.
Qed.

Lemma progress_known_length_witness :
  0 < ten_million
  /\ total_bytes ten_million_chunks = ten_million
  /\ download_file (Some ten_million) ten_million_chunks
     = (map (float_percent ten_million) (received 0 ten_million_chunks) ++ [100],
        Return tt)
  /\ Forall (fun got => floor_percent ten_million got <= float_percent ten_million got
                        <= floor_percent ten_million got + 1)
            (received 0 ten_million_chunks)
  /\ (ten_million < 2 ^ 47 ->
      map (float_percent ten_million) (received 0 ten_million_chunks)
      = map (floor_percent ten_million) (received 0 ten_million_chunks))
  /\ nondecreasing (fst (download_file (Some ten_million) ten_million_chunks))
  /\ last (fst (download_file (Some ten_million) ten_million_chunks)) 0 = 100.
Proof.
  assert (H1 : 0 < ten_million) by reflexivity.
  assert (H2 : total_bytes ten_million_chunks = ten_million) by reflexivity.
  exact (conj H1 (conj H2
           (@progress_known_length ten_million ten_million_chunks H1 H2))).
Defined.

(** The values of the specification's test: they start at 5. *)
Example ten_million_progress :
  fst (download_file (Some ten_million) ten_million_chunks)
  = [5; 10; 15; 20; 26; 31; 36; 41; 47; 52; 57; 62; 68; 73; 78; 83; 89; 94; 99;
     100; 100].
Proof. vm_compute. reflexivity. Qed.

(** C8 as stated fails beyond the precision of the float division: with
    [10^17] bytes declared and all but the last received, the code reports
    100 where the floor is 99. *)
Lemma progress_not_the_floor :
  0 < huge_total
  /\ total_bytes huge_chunks = huge_total
  /\ download_file (Some huge_total) huge_chunks = ([100; 100; 100], Return tt)
  /\ map (floor_percent huge_total) (received 0 huge_chunks) = [99; 100].
Proof. repeat split; vm_compute; reflexivity. Qed.

(* ================================================================= *)
(** ** Remarks on the patterns *)

(** C2 as stated fails: the direct test looks at the text before the first
    [?], not at the path.  The link [https://a.b/x.glb#view] is an absolute
    HTTPS URL whose path is [/x.glb] and whose query string is empty, and
    the resolution does not return it: it requests it as a page. *)
Lemma direct_link_with_fragment_is_fetched :
  _is_url example_lib fragment_url = true
  /\ urlparse example_lib fragment_url
     = Return {| scheme := ustr "https"; netloc := ustr "a.b";
                 path := ustr "/x.glb"; params := []; query := [];
                 fragment := ustr "view" |}
  /\ is_direct_glb example_lib fragment_url = false
  /\ resolve_to_glb_url example_lib net_timeout fragment_url []
     = (fetch_events fragment_url, Raise Timeout).
Proof. repeat split; vm_compute; reflexivity. Qed.

(** C1 (defect of the code).  On a page whose only link is
    [href="assets/m.glb"], relative to the page, the text holds no absolute
    link and no root-relative path, and the value of the [href] is
    [assets/m.glb].  The scrape does not join that value: the root-relative
    pattern matches from the slash inside it, so what is joined with the
    page's URL, for every library, is [/m.glb], and the link returned is a
    file at the root of the site.  The branch for the values of [href] and
    [src] is not reached by a value that holds a slash. *)
Theorem scan_joins_relative_link_from_its_slash L tr :
  re_findall re_absolute relative_html = []
  /\ re_findall re_root_relative relative_html = [ustr "/m.glb"]
  /\ re_findall re_attribute relative_html = [ustr "assets/m.glb"]
  /\ scan_page_for_glb L net_relative page_input tr
     = bind (lift (urljoin L page_input (ustr "/m.glb"))) (return_normalized L)
         (tr ++ fetch_events page_input)
  /\ scan_page_for_glb example_lib net_relative page_input []
     = (fetch_events page_input, Return (Some (ustr "https://www.meshy.ai/m.glb"))).
Proof.
  assert (Ha : re_findall re_absolute relative_html = [])
    by (vm_compute; reflexivity).
  assert (Hr : re_findall re_root_relative relative_html = [ustr "/m.glb"])
    by (vm_compute; reflexivity).
  split; [exact Ha|]. split; [exact Hr|].
  split; [vm_compute; reflexivity|]. split.
  - rewrite (@scan_after_fetch L net_relative page_input tr
               {| r_url := page_input; r_text := relative_html |} eq_refl).
    cbn [r_text r_url]. now rewrite Ha, Hr.
  - vm_compute. reflexivity.
Qed.

(** The model id is found in any text around it, in any case of letters. *)
Example model_id_extracted :
  _extract_model_id (ustr "see V2-019A7474-3f2a-7a7d-9282-cc5599095a44!")
  = Some (ustr "V2-019A7474-3f2a-7a7d-9282-cc5599095a44").
Proof. vm_compute. reflexivity. Qed.

(* ================================================================= *)
(** * Further properties of the code *)

Local Close Scope Z_scope.

(* ================================================================= *)
(** ** Patterns of fixed shape and the model id *)

Lemma fits_nil m : fits [] m = true <-> m = [].
Proof. destruct m; simpl; split; congruence. Qed.

Lemma fits_app sh1 sh2 m :
  fits (sh1 ++ sh2) m = true
  <-> exists m1 m2, m = m1 ++ m2 /\ fits sh1 m1 = true /\ fits sh2 m2 = true.
Proof.
  revert m. induction sh1 as [|p sh1 IH]; intros m; simpl.
  - split.
    + intros H. exists [], m. auto.
    + intros (m1 & m2 & -> & H1 & H2). destruct m1; [exact H2|discriminate].
  - destruct m as [|c m].
    + split; [discriminate|].
      intros (m1 & m2 & Hm & H1 & _). destruct m1; discriminate.
    + split.
      * intros H. apply andb_prop in H as [Hc H]. apply IH in H.
        destruct H as (m1 & m2 & -> & H1 & H2).
        exists (c :: m1), m2. simpl. rewrite Hc. auto.
      * intros (m1 & m2 & Hm & H1 & H2). destruct m1 as [|c1 m1]; [discriminate|].
        injection Hm as -> ->. simpl in H1. apply andb_prop in H1 as [Hc H1].
        rewrite Hc. simpl. apply IH. eauto.
Qed.

Lemma fits_length sh m : fits sh m = true -> length m = length sh.
Proof.
  revert m. induction sh as [|p sh IH]; intros [|c m]; simpl; try discriminate; auto.
  intros H. apply andb_prop in H as [_ H]. f_equal. auto.
Qed.

(** A pattern of fixed shape matches exactly the texts that fit its
    classes. *)
Lemma lang_shape r :
  forall sh, shape r = Some sh ->
  forall m rest, lang r m rest <-> fits sh m = true.
Proof.
  induction r as [|p|r1 IH1 r2 IH2|r1 IH1 r2 IH2|r1 IH1|g p|n r1 IH1|r1 IH1];
    simpl; intros sh Hsh; try discriminate.
  - injection Hsh as <-. intros m rest. symmetry. apply fits_nil.
  - injection Hsh as <-. intros m rest. split.
    + intros (c & -> & Hc). simpl. now rewrite Hc.
    + destruct m as [|c [|c' m]]; simpl; try discriminate.
      * intros H. apply andb_prop in H as [Hc _]. eauto.
      * intros H. apply andb_prop in H as [_ H]. discriminate.
  - destruct (shape r1) as [a|]; [|discriminate].
    destruct (shape r2) as [b|]; [|discriminate]. injection Hsh as <-.
    intros m rest. rewrite fits_app. split.
    + intros (m1 & m2 & -> & L1 & L2). exists m1, m2.
      repeat split; [eapply IH1 | eapply IH2]; eauto.
    + intros (m1 & m2 & -> & F1 & F2). exists m1, m2.
      repeat split; [eapply IH1 | eapply IH2]; eauto.
  - destruct (shape r1) as [a|]; [|discriminate]. injection Hsh as <-.
    intros m rest. revert m. induction n as [|n IHn]; intros m.
    + simpl. symmetry. apply fits_nil.
    + cbn [repeat concat]. rewrite fits_app. split.
      * intros (m1 & m2 & -> & L1 & L2). exists m1, m2.
        repeat split; [eapply IH1; eauto | apply IHn; exact L2].
      * intros (m1 & m2 & -> & F1 & F2). exists m1, m2.
        repeat split; [eapply IH1; eauto | apply IHn; exact F2].
Qed.

Lemma fits_ext sh sh' :
  Forall2 (fun p q : char -> bool => forall c, p c = q c) sh sh' ->
  forall m, fits sh m = fits sh' m.
Proof.
  induction 1 as [|p q sh sh' Hpq _ IH]; intros [|c m]; simpl; auto.
  now rewrite Hpq, IH.
Qed.

Lemma fits_lower sh m :
  fits (map (fun (p : char -> bool) c => p (lower_char c)) sh) m = fits sh (lower m).
Proof.
  revert m. induction sh as [|p sh IH]; intros [|c m]; simpl; auto.
  now rewrite IH.
Qed.

(** The model id pattern matches exactly the well-formed ids. *)
Lemma model_id_lang m rest :
  lang (p_group re_model_id) m rest <-> well_formed_id m = true.
Proof.
  unfold well_formed_id. rewrite <- fits_lower.
  rewrite (@lang_shape (p_group re_model_id) _ eq_refl m rest).
  match goal with |- fits ?a m = true <-> fits ?b m = true =>
    assert (E : forall x, fits a x = fits b x); [|now rewrite E] end.
  apply fits_ext. cbv [map id_shape repeat app concat].
  repeat (apply Forall2_cons; [intros c; cbn; rewrite ?orb_false_r; reflexivity|]).
  apply Forall2_nil.
Qed.

Lemma pmatch_whole r w g rest : pmatch (whole r) w g rest <-> w = g /\ lang r g rest.
Proof.
  unfold pmatch, whole; simpl. split.
  - intros (b & a & -> & -> & Hg & ->). simpl in *. now rewrite app_nil_r.
  - intros [-> Hg]. exists [], []. simpl. now rewrite app_nil_r.
Qed.

Lemma re_search_sound p s w g :
  re_search p s = Some (w, g) ->
  exists pre rest, s = pre ++ w ++ rest /\ pmatch p w g rest.
Proof.
  induction s as [|c s IH]; simpl.
  - destruct (match_here p []) as [[w' g']|] eqn:H; [|discriminate].
    intros [= <- <-]. destruct (match_here_sound _ _ H) as (rest & Hs & Hm).
    exists [], rest. auto.
  - destruct (match_here p (c :: s)) as [[w' g']|] eqn:H.
    + intros [= <- <-]. destruct (match_here_sound _ _ H) as (rest & Hs & Hm).
      exists [], rest. auto.
    + intros Hr. destruct (IH Hr) as (pre & rest & -> & Hm).
      exists (c :: pre), rest. auto.
Qed.

Lemma lower_length s : length (lower s) = length s.
Proof. apply length_map. Qed.

Lemma extract_sound_wf text id :
  _extract_model_id text = Some id ->
  well_formed_id id = true.
Proof.
  unfold _extract_model_id.
  destruct (re_search re_model_id text) as [[w g]|] eqn:H; [|discriminate].
  intros [= ->]. apply re_search_sound in H as (pre & rest & Ht & Hm).
  apply pmatch_whole in Hm as [-> Hl]. now apply model_id_lang in Hl.
Qed.

(** X1.  What [_extract_model_id] returns is a part of the text and a
    well-formed id: 39 characters that, in lower case, are [v2-] and five
    groups of 8, 4, 4, 4 and 12 hexadecimal digits joined by hyphens. *)
Theorem extract_model_id_sound text id :
  _extract_model_id text = Some id ->
  well_formed_id id = true
  /\ length id = 39
  /\ exists pre post, text = pre ++ id ++ post.
Proof.
  unfold _extract_model_id.
  destruct (re_search re_model_id text) as [[w g]|] eqn:H; [|discriminate].
  intros [= ->]. apply re_search_sound in H as (pre & rest & Ht & Hm).
  apply pmatch_whole in Hm as [-> Hl]. apply model_id_lang in Hl.
  split; [exact Hl|]. split.
  - unfold well_formed_id in Hl. apply fits_length in Hl.
    rewrite lower_length in Hl. exact Hl.
  - eauto.
Qed.

Lemma extract_model_id_sound_witness :
  _extract_model_id id_in_text = Some example_id
  /\ well_formed_id example_id = true
  /\ length example_id = 39
  /\ exists pre post, id_in_text = pre ++ example_id ++ post.
Proof.
  assert (H : _extract_model_id id_in_text = Some example_id)
    by (vm_compute; reflexivity).
  exact (conj H (@extract_model_id_sound id_in_text example_id H)).
Defined.

(** X2.  A text that holds a well-formed id anywhere always yields an id:
    [_extract_model_id] fails only on texts without one. *)
Theorem extract_model_id_complete pre id post :
  well_formed_id id = true ->
  exists id', _extract_model_id (pre ++ id ++ post) = Some id'.
Proof.
  intros Hw. unfold _extract_model_id.
  destruct (re_search re_model_id (pre ++ id ++ post)) as [[w g]|] eqn:H; [eauto|].
  exfalso. apply re_search_none in H. apply H.
  exists pre, id, id, post. split; [reflexivity|].
  apply pmatch_whole. split; [reflexivity|]. now apply model_id_lang.
Qed.

Lemma extract_model_id_complete_witness :
  well_formed_id example_id = true
  /\ exists id',
       _extract_model_id (ustr "my model: " ++ example_id ++ ustr " (shared)")
       = Some id'.
Proof.
  assert (H : well_formed_id example_id = true) by reflexivity.
  exact (conj H (@extract_model_id_complete (ustr "my model: ") example_id
                   (ustr " (shared)") H)).
Defined.

(* ================================================================= *)
(** ** The download's reports *)

Local Open Scope Z_scope.

Lemma iter_content_nonpositive total chunks :
  total <= 0 ->
  forall got reported,
    iter_content total got chunks reported = iter_content 0 got chunks reported.
Proof.
  intros Ht. induction chunks as [|n chunks IH]; intros got reported; simpl.
  - reflexivity.
  - destruct (n =? 0)%N; [apply IH|].
    assert (E : (0 <? total) = false) by (apply Z.ltb_ge; lia).
    rewrite E. apply IH.
Qed.

Lemma iter_content_skips_empty total chunks :
  forall got reported,
    iter_content total got (filter nonempty_chunk chunks) reported
    = iter_content total got chunks reported.
Proof.
  induction chunks as [|n chunks IH]; intros got reported; [reflexivity|].
  cbn [filter]. unfold nonempty_chunk at 1.
  destruct (n =? 0)%N eqn:En; cbn [negb].
  - cbn [iter_content]. rewrite En. apply IH.
  - cbn [iter_content]. rewrite En.
    destruct (0 <? total).
    + destruct (truediv ((got + Z.of_N n) * 100) total); [apply IH|reflexivity].
    + apply IH.
Qed.

Lemma nondecreasing_bounded lo hi l :
  nondecreasing (lo :: l ++ [hi]) -> Forall (fun v => lo <= v <= hi) l.
Proof.
  revert lo. induction l as [|x l IH]; intros lo H; [constructor|].
  cbn [app] in H. inversion H as [| |a b l' Hab Hrest]; subst.
  pose proof (IH _ Hrest) as Hl.
  assert (Hx : x <= hi).
  { destruct l as [|y l].
    - cbn [app] in Hrest. inversion Hrest; subst. assumption.
    - inversion Hl as [|? ? Hy _]; subst. lia. }
  constructor; [lia|].
  eapply Forall_impl; [|exact Hl]. cbv beta. intros v Hv. lia.
Qed.

(** X3.  A body that ends before the declared length is not noticed: when
    the chunks hold no more bytes than the positive length declared, the
    call ends normally, every value it reports lies between 0 and 100, the
    values never decrease, and the last one is 100 however few bytes
    arrived. *)
Theorem progress_short_body total chunks :
  0 < total -> total_bytes chunks <= total ->
  download_file (Some total) chunks
    = (map (float_percent total) (received 0 chunks) ++ [100], Return tt)
  /\ Forall (fun v => 0 <= v <= 100) (fst (download_file (Some total) chunks))
  /\ nondecreasing (fst (download_file (Some total) chunks))
  /\ last (fst (download_file (Some total) chunks)) 0 = 100.
Proof.
  intros Ht Hsum.
  assert (H : download_file (Some total) chunks
              = (map (float_percent total) (received 0 chunks) ++ [100], Return tt)).
  { unfold download_file, declared_total.
    rewrite (@iter_content_known total chunks Ht 0 []) by lia. reflexivity. }
  assert (Hnd : nondecreasing
                  (0 :: map (float_percent total) (received 0 chunks) ++ [100])).
  { apply percent_nondecreasing; try lia.
    intros g Hg1 Hg2.
    pose proof (@float_percent_bounds total g Ht Hg1 Hg2) as [[Hfl _] _].
    assert (0 <= floor_percent total g)
      by (unfold floor_percent; apply Z.div_pos; lia).
    lia. }
  rewrite H. cbn [fst]. repeat split.
  - apply Forall_app. split.
    + apply (@nondecreasing_bounded _ _ _ Hnd).
    + constructor; [lia|constructor].
  - apply nondecreasing_tail with (x := 0). exact Hnd.
  - apply last_last.
Qed.

Lemma progress_short_body_witness :
  0 < ten_million
  /\ total_bytes [524288%N; 524288%N] <= ten_million
  /\ download_file (Some ten_million) [524288%N; 524288%N] = ([5; 10; 100], Return tt).
Proof.
  assert (H1 : 0 < ten_million) by reflexivity.
  assert (H2 : total_bytes [524288%N; 524288%N] <= ten_million)
    by (vm_compute; discriminate).
  split; [exact H1|]. split; [exact H2|].
  exact (proj1 (@progress_short_body ten_million [524288%N; 524288%N] H1 H2)).
Defined.

(** X4.  A declared length that is zero or negative counts as none: the
    reports and the outcome are those of a response without the header. *)
Theorem progress_nonpositive_length n chunks :
  n <= 0 -> download_file (Some n) chunks = download_file None chunks.
Proof.
  intros Hn. unfold download_file, declared_total.
  now rewrite (@iter_content_nonpositive n chunks Hn).
Qed.

Lemma progress_nonpositive_length_witness :
  -5 <= 0
  /\ download_file (Some (-5)) [1048576%N; 1048576%N]
     = download_file None [1048576%N; 1048576%N].
Proof.
  assert (H : -5 <= 0) by (vm_compute; discriminate).
  exact (conj H (@progress_nonpositive_length (-5) [1048576%N; 1048576%N] H)).
Defined.

(** X5.  Empty chunks leave no mark: with or without a declared length,
    the reports and the outcome are those of the stream without its empty
    chunks. *)
Theorem progress_ignores_empty_chunks content_length chunks :
  download_file content_length (filter nonempty_chunk chunks)
  = download_file content_length chunks.
Proof.
  unfold download_file. now rewrite iter_content_skips_empty.
Qed.

(** X6.  The cap at 99 of the value reported without a declared length
    never takes effect: the value is the count of whole MiB received,
    modulo 100.  So it starts again from 0 every 100 MiB: it is no measure
    of what is left. *)
Theorem pulse_wraps got :
  pulse got = (got / 1048576) mod 100
  /\ pulse (got + 100 * 1048576) = pulse got.
Proof.
  assert (E : forall g, pulse g = (g / 1048576) mod 100).
  { intros g. unfold pulse. change (1024 * 1024) with 1048576.
    pose proof (Z.mod_pos_bound (g / 1048576) 100 ltac:(lia)). lia. }
  split; [apply E|]. rewrite !E.
  rewrite Z.div_add by lia. rewrite Z.add_mod by lia.
  rewrite Z.mod_same by lia. rewrite Z.add_0_r. apply Z.mod_mod. lia.
Qed.

Local Close Scope Z_scope.

(* ================================================================= *)
(** ** The page of a model id *)

Lemma path_char_false c :
  path_char c = false -> In c [ch "#"; ch "?"; ch ";"; 9%N; 13%N; 10%N].
Proof.
  unfold path_char, unsafe_url_char, is_char. intros H.
  apply negb_false_iff in H.
  repeat (apply orb_true_iff in H as [H|H]);
    apply char_eqb_eq in H; subst c; simpl; tauto.
Qed.

Lemma fits_forall (Q : char -> Prop) sh m :
  fits sh m = true -> Forall (fun p : char -> bool => forall c, p c = true -> Q c) sh ->
  Forall Q m.
Proof.
  revert m. induction sh as [|p sh IH]; intros [|c m]; simpl; try discriminate.
  - constructor.
  - intros H Hsh. apply andb_prop in H as [Hc H].
    inversion Hsh as [|? ? Hp Hrest]; subst. constructor; auto.
Qed.

(** No character of a model id is a delimiter of a URL. *)
Lemma id_path_chars id : well_formed_id id = true -> Forall (fun c => path_char c = true) id.
Proof.
  unfold well_formed_id, lower. intros H.
  apply (@fits_forall (fun x => forall c, lower_char c = x -> path_char c = true)) in H.
  - rewrite Forall_map in H. eapply Forall_impl; [|exact H].
    cbv beta. intros c Hc. now apply Hc.
  - assert (Hno : forall p : char -> bool,
               (forall c, In c [ch "#"; ch "?"; ch ";"; 9%N; 13%N; 10%N] ->
                          p (lower_char c) = false) ->
               forall x, p x = true -> forall c, lower_char c = x -> path_char c = true).
    { intros p Hp x Hx c <-. destruct (path_char c) eqn:E; [reflexivity|].
      apply path_char_false in E. rewrite (Hp c E) in Hx. discriminate. }
    assert (Hall : forall p : char -> bool,
               forallb (fun c => negb (p (lower_char c)))
                       [ch "#"; ch "?"; ch ";"; 9%N; 13%N; 10%N] = true ->
               forall x, p x = true -> forall c, lower_char c = x -> path_char c = true).
    { intros p Hp. apply Hno. intros c Hc.
      rewrite forallb_forall in Hp. apply Hp in Hc. now apply negb_true_iff in Hc. }
    cbv [id_shape repeat app].
    repeat (apply Forall_cons; [apply Hall; vm_compute; reflexivity|]).
    apply Forall_nil.
Qed.

Lemma path_char_true c :
  path_char c = true ->
  char_eqb c (ch "#") = false /\ char_eqb c (ch "?") = false
  /\ char_eqb c (ch ";") = false /\ unsafe_url_char c = false.
Proof.
  unfold path_char, is_char. intros H. apply negb_true_iff in H.
  repeat (apply orb_false_iff in H as [H ?]). auto.
Qed.

Lemma path_chars_kept s :
  Forall (fun c => path_char c = true) s ->
  filter (fun c => negb (unsafe_url_char c)) s = s.
Proof.
  induction 1 as [|c l Hc _ IH]; [reflexivity|]. simpl.
  apply path_char_true in Hc as (_ & _ & _ & ->). simpl. now rewrite IH.
Qed.

Lemma path_chars_no s (a : char) :
  Forall (fun c => path_char c = true) s ->
  In a [ch "#"; ch "?"; ch ";"] -> after_first a s = None /\ contains a s = false.
Proof.
  intros Hs Ha. induction Hs as [|c l Hc _ IH]; [split; reflexivity|].
  cbn [after_first contains existsb]. fold (contains a l).
  destruct IH as [IH1 IH2]. rewrite IH1, IH2.
  apply path_char_true in Hc as (H1 & H2 & H3 & _).
  assert (E : char_eqb c a = false).
  { cbn [In] in Ha. destruct Ha as [<-|[<-|[<-|[]]]]; assumption. }
  rewrite E. unfold char_eqb in *. rewrite N.eqb_sym, E. split; reflexivity.
Qed.

Lemma meshy_page_parse L id :
  Forall (fun c => path_char c = true) id ->
  urlparse L (meshy_page id)
  = Return {| scheme := ustr "https"; netloc := ustr "www.meshy.ai";
              path := ustr "/3d-models/" ++ id;
              params := []; query := []; fragment := [] |}.
Proof.
  intros Hid.
  destruct (@path_chars_no id (ch "#") Hid ltac:(simpl; tauto)) as [Hh _].
  destruct (@path_chars_no id (ch "?") Hid ltac:(simpl; tauto)) as [Hq _].
  destruct (@path_chars_no id (ch ";") Hid ltac:(simpl; tauto)) as [_ Hs].
  assert (Hsplit : urlsplit L (meshy_page id)
          = Return {| sr_scheme := ustr "https"; sr_netloc := ustr "www.meshy.ai";
                      sr_path := ustr "/3d-models/" ++ id;
                      sr_query := []; sr_fragment := [] |}).
  { unfold urlsplit, meshy_page.
    change (lstrip_chars c0_control_or_space
              (ustr "https://www.meshy.ai/3d-models/" ++ id))
      with (ustr "https://www.meshy.ai/3d-models/" ++ id).
    rewrite filter_app, (path_chars_kept Hid).
    cbn.
    change 35%N with (ch "#"). rewrite Hh. cbn.
    change 63%N with (ch "?"). rewrite Hq. reflexivity. }
  unfold urlparse. rewrite Hsplit. cbn.
  fold (contains 59%N id). change 59%N with (ch ";"). rewrite Hs. reflexivity.
Qed.

(** X7.  The page requested for a model id is always the same site: for
    every id that [_extract_model_id] returns, the page URL parses as an
    [https] URL on [www.meshy.ai] with the path [/3d-models/<id>] and no
    parameters, query or fragment, so it is an absolute HTTP(S) URL.
    Nothing in the pasted text can redirect the request to another host. *)
Theorem model_page_is_on_meshy L text id :
  _extract_model_id text = Some id ->
  urlparse L (meshy_page id)
  = Return {| scheme := ustr "https"; netloc := ustr "www.meshy.ai";
              path := ustr "/3d-models/" ++ id;
              params := []; query := []; fragment := [] |}
  /\ _is_url L (meshy_page id) = true.
Proof.
  intros H. apply extract_sound_wf in H.
  pose proof (meshy_page_parse L (id_path_chars _ H)) as Hp.
  split; [exact Hp|]. unfold _is_url. rewrite Hp. reflexivity.
Qed.

Lemma model_page_is_on_meshy_witness :
  _extract_model_id id_in_text = Some example_id
  /\ urlparse example_lib (meshy_page example_id)
     = Return {| scheme := ustr "https"; netloc := ustr "www.meshy.ai";
                 path := ustr "/3d-models/" ++ example_id;
                 params := []; query := []; fragment := [] |}
  /\ _is_url example_lib (meshy_page example_id) = true.
Proof.
  assert (H : _extract_model_id id_in_text = Some example_id)
    by (vm_compute; reflexivity).
  exact (conj H (@model_page_is_on_meshy example_lib id_in_text example_id H)).
Defined.

(* ================================================================= *)
(** ** The requests of a resolution *)

Section Requests.

Variable L : PyLib.
Variable net : network.
Variable allowed : str -> Prop.

Lemma rw_silent A (m : M A) :
  (forall tr, fst (m tr) = tr) -> requests_within allowed 0 m.
Proof.
  intros H tr0 tr o E. exists []. pose proof (H tr0) as H0. rewrite E in H0.
  simpl in H0. subst tr. split; [now rewrite app_nil_r|].
  split; [apply le_n|]. intros url [].
Qed.

Lemma rw_ret A (a : A) : requests_within allowed 0 (ret a).
Proof. apply rw_silent. reflexivity. Qed.

Lemma rw_lift A (x : outcome A) : requests_within allowed 0 (lift x).
Proof. apply rw_silent. reflexivity. Qed.

Lemma rw_log msg : requests_within allowed 0 (log msg).
Proof.
  intros tr0 tr o [= <- <-]. exists [EvLog msg]. split; [reflexivity|].
  split; [apply le_n|]. intros url [H|[]]. discriminate.
Qed.

Lemma rw_fetch url : allowed url -> requests_within allowed 1 (fetch net url).
Proof.
  intros Ha tr0 tr o [= <- <-]. exists [EvGet url]. split; [reflexivity|].
  split; [apply le_n|]. intros url' [[= <-]|[]]. exact Ha.
Qed.

Lemma rw_bind A B (m : M A) (f : A -> M B) n k :
  requests_within allowed n m -> (forall a, requests_within allowed k (f a)) ->
  requests_within allowed (n + k) (bind m f).
Proof.
  intros Hm Hf tr0 tr o. unfold bind.
  destruct (m tr0) as [tr1 [a|e1]] eqn:Em.
  - intros Ef. destruct (Hm _ _ _ Em) as (evs1 & -> & Hn & H1).
    destruct (Hf a _ _ _ Ef) as (evs2 & -> & Hk & H2).
    exists (evs1 ++ evs2). split; [now rewrite app_assoc|]. split.
    + unfold gets in *. rewrite filter_app, length_app.
      apply Nat.add_le_mono; assumption.
    + intros url Hin. apply in_app_or in Hin as [Hin|Hin]; auto.
  - intros [= <- <-]. destruct (Hm _ _ _ Em) as (evs1 & -> & Hn & H1).
    exists evs1. split; [reflexivity|]. split; [|exact H1].
    eapply Nat.le_trans; [exact Hn|]. apply Nat.le_add_r.
Qed.

Lemma rw_weaken A (m : M A) n k :
  n <= k -> requests_within allowed n m -> requests_within allowed k m.
Proof.
  intros Hnk Hm tr0 tr o E. destruct (Hm _ _ _ E) as (evs & -> & Hn & H).
  exists evs. split; [reflexivity|]. split; [|exact H].
  eapply Nat.le_trans; eassumption.
Qed.

Lemma rw_return_normalized found : requests_within allowed 0 (return_normalized L found).
Proof.
  unfold return_normalized.
  apply (@rw_bind _ _ _ _ 0 0); [apply rw_lift|]. intros norm.
  apply (@rw_bind _ _ _ _ 0 0); [|intros; apply rw_ret].
  destruct (negb (str_eqb norm found)); [apply rw_log | apply rw_ret].
Qed.

Lemma rw_scan url : allowed url -> requests_within allowed 1 (scan_page_for_glb L net url).
Proof.
  intros Ha. unfold scan_page_for_glb.
  apply (@rw_bind _ _ _ _ 0 1); [apply rw_log|]. intros _.
  apply (@rw_bind _ _ _ _ 1 0); [apply rw_fetch; exact Ha|]. intros r.
  destruct (re_findall re_absolute (r_text r)); [|apply rw_return_normalized].
  destruct (re_findall re_root_relative (r_text r)).
  - destruct (re_findall re_attribute (r_text r)); [apply rw_ret|].
    apply (@rw_bind _ _ _ _ 0 0); [apply rw_lift | intros; apply rw_return_normalized].
  - apply (@rw_bind _ _ _ _ 0 0); [apply rw_lift | intros; apply rw_return_normalized].
Qed.

Lemma rw_resolved u : requests_within allowed 0 (resolved L u).
Proof.
  unfold resolved. apply (@rw_bind _ _ _ _ 0 0); [apply rw_lift | intros; apply rw_ret].
Qed.

End Requests.

Lemma rw_resolve L net input :
  requests_within (resolution_target L input) 2 (resolve_to_glb_url L net input).
Proof.
  unfold resolve_to_glb_url.
  destruct (is_direct_glb L (strip input));
    [apply rw_weaken with (n := 0); [repeat constructor | apply rw_resolved]|].
  apply (@rw_bind _ _ _ _ _ 1 1).
  - destruct (_is_url L (strip input)) eqn:Hurl.
    + apply rw_scan. left. auto.
    + apply rw_weaken with (n := 0); [repeat constructor | apply rw_ret].
  - intros found.
    destruct (truthy found);
      [apply rw_weaken with (n := 0); [repeat constructor | apply rw_resolved]|].
    destruct (_extract_model_id (strip input)) as [id|] eqn:Hid;
      [|apply rw_weaken with (n := 0); [repeat constructor | apply rw_lift]].
    apply (@rw_bind _ _ _ _ _ 1 0).
    + apply rw_scan. right. eauto.
    + intros found'. destruct (truthy found'); [apply rw_resolved | apply rw_lift].
Qed.

(** X8.  A resolution makes at most two requests, and each is to an
    absolute HTTP(S) URL: the trimmed input itself, when it is one, or the
    page of the model id found in the input. *)
Theorem resolution_requests L net input tr0 tr o :
  resolve_to_glb_url L net input tr0 = (tr, o) ->
  exists evs,
    tr = tr0 ++ evs
    /\ length (gets evs) <= 2
    /\ forall url, In (EvGet url) evs ->
         resolution_target L input url /\ _is_url L url = true.
Proof.
  intros H. destruct (rw_resolve _ _ _ _ H) as (evs & -> & Hn & Ht).
  exists evs. split; [reflexivity|]. split; [exact Hn|].
  intros url Hin. pose proof (Ht url Hin) as Hu. split; [exact Hu|].
  destruct Hu as [[Hurl ->]|(id & Hid & ->)]; [exact Hurl|].
  apply extract_sound_wf in Hid.
  unfold _is_url. now rewrite (meshy_page_parse L (id_path_chars _ Hid)).
Qed.

Lemma resolution_requests_witness :
  resolve_to_glb_url example_lib net_blank page_input []
    = (fetch_events page_input ++ fetch_events page_input,
       Raise (ValueError guidance))
  /\ exists evs,
       fetch_events page_input ++ fetch_events page_input = [] ++ evs
       /\ length (gets evs) <= 2
       /\ forall url, In (EvGet url) evs ->
            resolution_target example_lib page_input url
            /\ _is_url example_lib url = true.
Proof.
  assert (H : resolve_to_glb_url example_lib net_blank page_input []
              = (fetch_events page_input ++ fetch_events page_input,
                 Raise (ValueError guidance)))
    by (vm_compute; reflexivity).
  exact (conj H (@resolution_requests example_lib net_blank page_input [] _ _ H)).
Defined.

(* ================================================================= *)
(** ** What a resolution returns and raises *)

Section Outcomes.

Variable L : PyLib.
Variable net : network.

Lemma ro_bind A B (P : A -> Prop) (Q : B -> Prop) (m : M A) (f : A -> M B) :
  returns_only P m -> (forall a, P a -> returns_only Q (f a)) ->
  returns_only Q (bind m f).
Proof.
  intros Hm Hf tr tr' b. unfold bind.
  destruct (m tr) as [tr1 [a|e]] eqn:Em; [|discriminate].
  intros Ef. eapply Hf; eauto.
Qed.

Lemma ro_any A (m : M A) : returns_only (fun _ => True) m.
Proof. intros tr tr' a _. exact I. Qed.

Lemma ro_raise A (Q : A -> Prop) e : returns_only Q (lift (Raise e)).
Proof. intros tr tr' a H. discriminate. Qed.

Lemma ro_return_normalized found :
  returns_only (normalized L) (return_normalized L found).
Proof.
  intros tr tr' o H.
  destruct (return_normalized_spec L found tr) as (norm & Hn & E).
  rewrite E in H. injection H as _ <-. intros g [= <-]. eauto.
Qed.

Lemma ro_scan url : returns_only (normalized L) (scan_page_for_glb L net url).
Proof.
  unfold scan_page_for_glb.
  eapply ro_bind; [apply ro_any|]. intros _ _.
  eapply ro_bind; [apply ro_any|]. intros r _.
  destruct (re_findall re_absolute (r_text r)); [|apply ro_return_normalized].
  destruct (re_findall re_root_relative (r_text r)).
  - destruct (re_findall re_attribute (r_text r)).
    + intros tr tr' o [= _ <-] g Hg. discriminate.
    + eapply ro_bind; [apply ro_any|]. intros; apply ro_return_normalized.
  - eapply ro_bind; [apply ro_any|]. intros; apply ro_return_normalized.
Qed.

End Outcomes.

Lemma is_url_nonempty L s : _is_url L s = true -> s <> [].
Proof. intros H ->. discriminate. Qed.

Lemma normalized_trimmed L found g :
  _normalize_found_url L found = Return g -> strip g = g.
Proof.
  rewrite normalize_is_pipeline. intros [= <-]. unfold normalize_spec. apply strip_idem.
Qed.

Lemma truthy_some o g : truthy o = Some g -> o = Some g /\ g <> [].
Proof.
  destruct o as [[|c s]|]; simpl; try discriminate.
  intros [= <-]. split; [reflexivity|discriminate].
Qed.

Lemma ro_resolve L net input :
  is_direct_glb L (strip input) = false ->
  returns_only (fun r => glb_url r <> []
                  /\ exists found, _normalize_found_url L found = Return (glb_url r))
               (resolve_to_glb_url L net input).
Proof.
  intros Hd.
  assert (Hres : forall o g,
             normalized L o -> truthy o = Some g ->
             returns_only (fun r => glb_url r <> []
                             /\ exists found,
                                  _normalize_found_url L found = Return (glb_url r))
                          (resolved L g)).
  { intros o g Ho Hg t t' r' H. apply resolved_spec in H as [_ [-> _]].
    apply truthy_some in Hg as [-> Hne]. split; [exact Hne|]. now apply Ho. }
  unfold resolve_to_glb_url. rewrite Hd.
  apply ro_bind with (P := normalized L).
  - destruct (_is_url L (strip input)); [apply ro_scan|].
    intros t t' o [= _ <-] g Hg. discriminate.
  - intros found Hfound. destruct (truthy found) as [g|] eqn:Hg; [eauto|].
    destruct (_extract_model_id (strip input)); [|apply ro_raise].
    apply ro_bind with (P := normalized L); [apply ro_scan|].
    intros found' Hfound'. destruct (truthy found') as [g|] eqn:Hg';
      [eauto | apply ro_raise].
Qed.

(** X9.  The link a resolution returns is never empty and has no white
    space around it.  It is the trimmed input when that is a direct link,
    and a result of the normalizer otherwise. *)
Theorem resolved_link_shape L net input tr tr' r :
  resolve_to_glb_url L net input tr = (tr', Return r) ->
  glb_url r <> []
  /\ strip (glb_url r) = glb_url r
  /\ (is_direct_glb L (strip input) = true /\ glb_url r = strip input
      \/ is_direct_glb L (strip input) = false
         /\ exists found, _normalize_found_url L found = Return (glb_url r)).
Proof.
  destruct (is_direct_glb L (strip input)) eqn:Hd; intros H.
  - unfold resolve_to_glb_url in H. rewrite Hd in H.
    apply resolved_spec in H as [_ [-> _]].
    unfold is_direct_glb in Hd. apply andb_prop in Hd as [Hurl _].
    split; [now apply is_url_nonempty in Hurl|].
    split; [apply strip_idem|]. left. auto.
  - apply (@ro_resolve L net input Hd) in H. destruct H as (Hne & found & Hn).
    split; [exact Hne|].
    split; [eapply normalized_trimmed; eauto|]. right. eauto.
Qed.

Lemma resolved_link_shape_witness :
  resolve_to_glb_url example_lib net_example page_input []
    = (fetch_events page_input,
       Return {| glb_url := ustr "https://www.meshy.ai/assets/m.glb";
                 filename := ustr "m.glb" |})
  /\ ustr "https://www.meshy.ai/assets/m.glb" <> []
  /\ strip (ustr "https://www.meshy.ai/assets/m.glb")
     = ustr "https://www.meshy.ai/assets/m.glb"
  /\ (is_direct_glb example_lib (strip page_input) = true
      /\ ustr "https://www.meshy.ai/assets/m.glb" = strip page_input
      \/ is_direct_glb example_lib (strip page_input) = false
         /\ exists found,
              _normalize_found_url example_lib found
              = Return (ustr "https://www.meshy.ai/assets/m.glb")).
Proof.
  assert (H : resolve_to_glb_url example_lib net_example page_input []
              = (fetch_events page_input,
                 Return {| glb_url := ustr "https://www.meshy.ai/assets/m.glb";
                           filename := ustr "m.glb" |}))
    by (vm_compute; reflexivity).
  exact (conj H (@resolved_link_shape example_lib net_example page_input [] _ _ H)).
Defined.


Section Errors.

Variable L : PyLib.
Variable net : network.
Variable Q : exn -> Prop.







End Errors.





(* ================================================================= *)
(** ** From the pasted link to the page of its model id *)

Lemma scan_no_candidate L net url tr r :
  net (length (gets tr)) url = Return r ->
  no_candidate (r_text r) ->
  scan_page_for_glb L net url tr = (tr ++ fetch_events url, Return None).
Proof.
  intros Hnet (Ha & Hb & Hc). rewrite (@scan_after_fetch L net url tr r Hnet).
  now rewrite (@found_none _ _ Ha), (@found_none _ _ Hb), (@found_none _ _ Hc).
Qed.

Lemma gets_fetch_events tr url :
  length (gets (tr ++ fetch_events url)) = S (length (gets tr)).
Proof.
  unfold gets, fetch_events. rewrite filter_app, length_app. simpl.
  apply Nat.add_1_r.
Qed.

(** X11.  A pasted link that is no direct link, whose page holds no
    candidate, and that holds a model id, is followed by the page of that
    id: the resolution requests the link, then the page of the id, and when
    that page holds no candidate either it raises the guidance after these
    two requests. *)
Theorem resolve_link_then_model_page L net input tr r1 id r2 :
  _is_url L (strip input) = true ->
  is_direct_glb L (strip input) = false ->
  net (length (gets tr)) (strip input) = Return r1 ->
  no_candidate (r_text r1) ->
  _extract_model_id (strip input) = Some id ->
  net (S (length (gets tr))) (meshy_page id) = Return r2 ->
  no_candidate (r_text r2) ->
  resolve_to_glb_url L net input tr
  = (tr ++ fetch_events (strip input) ++ fetch_events (meshy_page id),
     Raise (ValueError guidance)).
Proof.
  intros Hurl Hd Hn1 Hc1 Hid Hn2 Hc2.
  unfold resolve_to_glb_url. rewrite Hd, Hurl. unfold bind at 1.
  rewrite (@scan_no_candidate L net _ tr r1 Hn1 Hc1). cbn [truthy].
  rewrite Hid. unfold bind.
  rewrite (@scan_no_candidate L net (meshy_page id) _ r2).
  - cbn [truthy]. unfold lift. now rewrite <- app_assoc.
  - now rewrite gets_fetch_events.
  - exact Hc2.
Qed.

Lemma blank_no_candidate : no_candidate blank_html.
Proof.
  repeat split; apply re_findall_nil; vm_compute; reflexivity.
Qed.

Lemma resolve_link_then_model_page_witness :
  resolve_to_glb_url example_lib net_blank page_input []
  = ([] ++ fetch_events (strip page_input) ++ fetch_events (meshy_page example_id),
     Raise (ValueError guidance)).
Proof.
  apply (@resolve_link_then_model_page example_lib net_blank page_input []
           {| r_url := strip page_input; r_text := blank_html |} example_id
           {| r_url := meshy_page example_id; r_text := blank_html |}).
  - vm_compute; reflexivity.
  - vm_compute; reflexivity.
  - reflexivity.
  - exact blank_no_candidate.
  - vm_compute; reflexivity.
  - reflexivity.
  - exact blank_no_candidate.
Defined.

(* ================================================================= *)
(** ** A plain link on the page *)

Lemma lang_alphabet r :
  forall m rest, lang r m rest -> Forall (fun c => alphabet r c = true) m.
Proof.
  induction r as [|p|r1 IH1 r2 IH2|r1 IH1 r2 IH2|r1 IH1|g p|n r1 IH1|r1 IH1];
    simpl; intros m rest.
  - intros ->. constructor.
  - intros (c & -> & Hc). repeat constructor. exact Hc.
  - intros (m1 & m2 & -> & L1 & L2). apply Forall_app. split.
    + eapply Forall_impl; [|eapply IH1; eauto]. cbv beta. intros c ->. reflexivity.
    + eapply Forall_impl; [|eapply IH2; eauto]. cbv beta. intros c ->.
      apply orb_true_r.
  - intros [H|H].
    + eapply Forall_impl; [|eapply IH1; eauto]. cbv beta. intros c ->. reflexivity.
    + eapply Forall_impl; [|eapply IH2; eauto]. cbv beta. intros c ->.
      apply orb_true_r.
  - intros [H| ->]; [eapply IH1; eauto | constructor].
  - intros [_ H]. exact H.
  - revert m. induction n as [|n IHn]; intros m.
    + intros ->. constructor.
    + intros (m1 & m2 & -> & L1 & L2). apply Forall_app. split.
      * eapply IH1; eauto.
      * apply IHn. exact L2.
  - intros [-> _]. constructor.
Qed.

Lemma upper_not_space x : is_upper_ascii x = true -> isspace x = false.
Proof.
  unfold is_upper_ascii, isspace. intros H. apply andb_prop in H as [H1 H2].
  apply N.leb_le in H1, H2.
  repeat match goal with
         | |- context [(?a <=? ?b)%N] =>
             let E := fresh in
             destruct (N.leb_spec a b) as [E|E]; try lia
         | |- context [(?a =? ?b)%N] =>
             let E := fresh in
             destruct (N.eqb_spec a b) as [E|E]; try lia
         end; reflexivity.
Qed.

Lemma lower_char_cases x :
  lower_char x = x \/ is_upper_ascii x = true.
Proof. unfold lower_char. destruct (is_upper_ascii x); auto. Qed.

(** No character of an absolute link that the page scrape finds is white
    space. *)
Lemma absolute_alphabet x :
  alphabet (p_group re_absolute) x = true -> isspace x = false.
Proof.
  assert (Hlow : forall a : ascii,
             isspace (ch a) = false ->
             char_eqb (lower_char x) (ch a) = true -> isspace x = false).
  { intros a Ha H. apply char_eqb_eq in H.
    destruct (lower_char_cases x) as [E|E].
    - now rewrite <- E, H.
    - now apply upper_not_space. }
  assert (Hlong : forall b : bool, b && char_eqb x 383%N = true -> isspace x = false).
  { intros b H. apply andb_prop in H as [_ H]. apply char_eqb_eq in H. now subst x. }
  assert (Hcls : not_space_quote x = true -> isspace x = false).
  { unfold not_space_quote. intros H. apply negb_true_iff in H.
    apply orb_false_iff in H as [H _]. apply orb_false_iff in H as [H _]. exact H. }
  cbn [alphabet re_absolute whole p_group http_prefix glb_tail seq_of word_i
       list_ascii_of_string map lit_i].
  intros H.
  repeat (apply orb_true_iff in H as [H|H]);
    first [ apply Hcls; exact H
          | eapply Hlong; exact H
          | eapply Hlow; [|exact H]; reflexivity ].
Qed.

Lemma strip_nonspace s : Forall (fun c => isspace c = false) s -> strip s = s.
Proof.
  intros H.
  assert (Hl : forall t, Forall (fun c => isspace c = false) t -> lstrip t = t).
  { intros [|c t] Ht; [reflexivity|]. inversion Ht; subst. now apply lstrip_fixed. }
  unfold strip, rstrip. rewrite (Hl s H), Hl; [apply rev_involutive|].
  now apply Forall_rev.
Qed.

Lemma contains_inside c s a b : s = a ++ strip s ++ b ->
  contains c s = false -> contains c (strip s) = false.
Proof.
  intros E H. rewrite E, !contains_app in H.
  apply orb_false_iff in H as [_ H]. now apply orb_false_iff in H as [H _].
Qed.

(** X12.  A text without backslash and ampersand is normalized by
    trimming alone: nothing else of it changes. *)
Theorem normalize_plain_text L raw :
  contains backslash raw = false -> contains (ch "&") raw = false ->
  _normalize_found_url L raw = Return (strip raw).
Proof.
  intros Hb Ha. rewrite normalize_is_pipeline.
  destruct (strip_inside raw) as (a & b & E).
  rewrite normalize_clean; [now rewrite strip_idem| |];
    eapply contains_inside; eauto.
Qed.

Lemma normalize_plain_text_witness :
  contains backslash shouting_url = false
  /\ contains (ch "&") shouting_url = false
  /\ _normalize_found_url example_lib shouting_url
     = Return (ustr "HTTPS://A.B/dir/Model.GLB?x=1").
Proof.
  assert (H1 : contains backslash shouting_url = false) by reflexivity.
  assert (H2 : contains (ch "&") shouting_url = false) by reflexivity.
  exact (conj H1 (conj H2 (@normalize_plain_text example_lib shouting_url H1 H2))).
Defined.

(** What the scrape finds with the absolute pattern is not empty and has
    no white space in it. *)
Lemma absolute_match_shape s c l :
  re_findall re_absolute s = c :: l ->
  c <> [] /\ strip c = c.
Proof.
  intros H. apply re_findall_first in H as (pre & w & rest & _ & Hm & _).
  apply pmatch_whole in Hm as [_ Hl]. split.
  - cbn [re_absolute whole p_group] in Hl.
    destruct Hl as (m1 & m2 & -> & L1 & _).
    cbn [http_prefix seq_of word_i list_ascii_of_string map] in L1.
    destruct L1 as (m3 & m4 & -> & L3 & _).
    destruct L3 as (m5 & m6 & -> & (x & -> & _) & _). discriminate.
  - apply strip_nonspace. apply lang_alphabet in Hl.
    eapply Forall_impl; [|exact Hl]. apply absolute_alphabet.
Qed.

(** The scrape of a page whose first absolute link has no backslash and no
    ampersand hands back that very link and logs nothing more. *)
Lemma scan_plain_link L net url tr r c l :
  net (length (gets tr)) url = Return r ->
  re_findall re_absolute (r_text r) = c :: l ->
  contains backslash c = false ->
  contains (ch "&") c = false ->
  scan_page_for_glb L net url tr = (tr ++ fetch_events url, Return (Some c))
  /\ truthy (Some c) = Some c.
Proof.
  intros Hnet Hfind Hb Ha.
  destruct (absolute_match_shape _ Hfind) as [Hne Hstrip].
  assert (Hnorm : _normalize_found_url L c = Return c).
  { rewrite normalize_is_pipeline, Hstrip, normalize_clean by assumption.
    now rewrite Hstrip. }
  rewrite (@scan_after_fetch L net _ tr r Hnet), Hfind.
  destruct (return_normalized_spec L c (tr ++ fetch_events url)) as (norm & Hn & ->).
  rewrite Hnorm in Hn. injection Hn as <-.
  unfold norm_log. rewrite (proj2 (str_eqb_eq c c) eq_refl). cbn [negb].
  rewrite app_nil_r. split; [reflexivity|].
  destruct c as [|x c']; [contradiction|reflexivity].
Qed.

Lemma resolved_run L u tr :
  resolved L u tr
  = (tr, obind (_guess_filename_from_url L u)
           (fun name => Return {| glb_url := u; filename := name |})).
Proof.
  unfold resolved, bind, lift, ret.
  destruct (_guess_filename_from_url L u); reflexivity.
Qed.

(** X13.  A page whose first absolute link has no backslash and no
    ampersand: the resolution of a pasted link to that page returns that
    very link, after the one request and without a log line of the
    normalizer, with the file name guessed from the link; it raises only
    when guessing the file name does. *)
Theorem resolve_plain_page_link L net input tr r c l :
  _is_url L (strip input) = true ->
  is_direct_glb L (strip input) = false ->
  net (length (gets tr)) (strip input) = Return r ->
  re_findall re_absolute (r_text r) = c :: l ->
  contains backslash c = false ->
  contains (ch "&") c = false ->
  resolve_to_glb_url L net input tr
  = (tr ++ fetch_events (strip input),
     obind (_guess_filename_from_url L c)
       (fun name => Return {| glb_url := c; filename := name |})).
Proof.
  intros Hurl Hd Hnet Hfind Hb Ha.
  destruct (@scan_plain_link L net _ tr r c l Hnet Hfind Hb Ha) as [Hscan Ht].
  unfold resolve_to_glb_url. rewrite Hd, Hurl. unfold bind at 1.
  rewrite Hscan, Ht. apply resolved_run.
Qed.

Lemma resolve_plain_page_link_witness :
  re_findall re_absolute absolute_html = [absolute_link]
  /\ resolve_to_glb_url example_lib net_absolute page_input []
     = ([] ++ fetch_events (strip page_input),
        obind (_guess_filename_from_url example_lib absolute_link)
          (fun name => Return {| glb_url := absolute_link; filename := name |}))
  /\ _guess_filename_from_url example_lib absolute_link = Return (ustr "fig.glb").
Proof.
  assert (H : re_findall re_absolute absolute_html = [absolute_link])
    by (vm_compute; reflexivity).
  split; [exact H|]. split; [|vm_compute; reflexivity].
  apply (@resolve_plain_page_link example_lib net_absolute page_input []
           {| r_url := strip page_input; r_text := absolute_html |}
           absolute_link []).
  - vm_compute; reflexivity.
  - vm_compute; reflexivity.
  - reflexivity.
  - exact H.
  - reflexivity.
  - reflexivity.
Defined.

(** X14.  A pasted text that is no link and holds a model id: when the
    first absolute link of the page of that id has no backslash and no
    ampersand, the resolution returns that very link after the one request
    to the page, with the file name guessed from the link; it raises only
    when guessing the file name does. *)
Theorem resolve_model_id L net input tr id r c l :
  _is_url L (strip input) = false ->
  _extract_model_id (strip input) = Some id ->
  net (length (gets tr)) (meshy_page id) = Return r ->
  re_findall re_absolute (r_text r) = c :: l ->
  contains backslash c = false ->
  contains (ch "&") c = false ->
  resolve_to_glb_url L net input tr
  = (tr ++ fetch_events (meshy_page id),
     obind (_guess_filename_from_url L c)
       (fun name => Return {| glb_url := c; filename := name |})).
Proof.
  intros Hurl Hid Hnet Hfind Hb Ha.
  destruct (@scan_plain_link L net _ tr r c l Hnet Hfind Hb Ha) as [Hscan Ht].
  unfold resolve_to_glb_url, is_direct_glb. rewrite Hurl. cbn [andb].
  unfold bind at 1. unfold ret at 1. cbn [truthy]. rewrite Hid.
  unfold bind at 1. rewrite Hscan, Ht. apply resolved_run.
Qed.

Lemma resolve_model_id_witness :
  _extract_model_id (strip id_in_text) = Some example_id
  /\ resolve_to_glb_url example_lib net_absolute id_in_text []
     = ([] ++ fetch_events (meshy_page example_id),
        obind (_guess_filename_from_url example_lib absolute_link)
          (fun name => Return {| glb_url := absolute_link; filename := name |})).
Proof.
  assert (H : _extract_model_id (strip id_in_text) = Some example_id)
    by (vm_compute; reflexivity).
  split; [exact H|].
  apply (@resolve_model_id example_lib net_absolute id_in_text [] example_id
           {| r_url := meshy_page example_id; r_text := absolute_html |}
           absolute_link []).
  - vm_compute; reflexivity.
  - exact H.
  - reflexivity.
  - vm_compute; reflexivity.
  - reflexivity.
  - reflexivity.
Defined.

(* ================================================================= *)
(** ** The guessed file name *)

Lemma before_first_absent c s : contains c (before_first c s) = false.
Proof.
  induction s as [|x s IH]; [reflexivity|]. simpl.
  destruct (char_eqb x c) eqn:E; [reflexivity|]. simpl.
  unfold char_eqb in *. rewrite N.eqb_sym, E. exact IH.
Qed.

Lemma basename_no_slash p : contains (ch "/") (basename p) = false.
Proof. unfold basename. rewrite contains_rev. apply before_first_absent. Qed.

(** X15.  The file name guessed from a URL is never empty and holds no
    slash, whatever the URL. *)
Theorem guessed_filename_no_slash L url name :
  _guess_filename_from_url L url = Return name ->
  name <> [] /\ contains (ch "/") name = false.
Proof.
  unfold _guess_filename_from_url.
  destruct (urlparse L url) as [u|e]; [|discriminate]. cbn [obind]. cbv zeta.
  pose proof (basename_no_slash (path u)) as Hb.
  destruct (basename (path u)) as [|c seg]; cbn [nonempty].
  - intros [= <-]. split; [discriminate | reflexivity].
  - intros [= <-].
    repeat match goal with |- context [if ?b then _ else _] => destruct b end;
      (split; [discriminate|]); try exact Hb.
    change (c :: seg ++ ustr ".glb") with ((c :: seg) ++ ustr ".glb").
    rewrite contains_app, Hb. reflexivity.
Qed.

Lemma guessed_filename_no_slash_witness :
  _guess_filename_from_url example_lib (ustr "https://a.b/dir/sub/figure?x=/y")
    = Return (ustr "figure.glb")
  /\ ustr "figure.glb" <> [] /\ contains (ch "/") (ustr "figure.glb") = false.
Proof.
  assert (H : _guess_filename_from_url example_lib (ustr "https://a.b/dir/sub/figure?x=/y")
              = Return (ustr "figure.glb")) by (vm_compute; reflexivity).
  exact (conj H (@guessed_filename_no_slash example_lib _ _ H)).
Defined.

(* ================================================================= *)
(** ** The normalizer and white space *)

(** X16.  White space around a candidate never matters to the
    normalizer, and its result has none around it. *)
Theorem normalize_ignores_outer_space L raw :
  exists s,
    _normalize_found_url L raw = Return s
    /\ _normalize_found_url L (strip raw) = Return s
    /\ strip s = s.
Proof.
  exists (normalize_spec L (strip raw)).
  rewrite !normalize_is_pipeline, strip_idem.
  repeat split. unfold normalize_spec. apply strip_idem.
Qed.

(* ================================================================= *)
(** ** The model id at the start of a text *)

Lemma app_same_length (a b c d : str) :
  a ++ b = c ++ d -> length a = length c -> a = c.
Proof.
  revert c. induction a as [|x a IH]; intros [|y c]; simpl; try discriminate; auto.
  intros [= -> H] [= Hl]. f_equal. auto.
Qed.

Lemma re_search_here p s m : match_here p s = Some m -> re_search p s = Some m.
Proof. intros H. destruct s; simpl; now rewrite H. Qed.

(** X17.  A text that starts with a well-formed id yields that id,
    whatever follows it. *)
Theorem extract_model_id_prefix id post :
  well_formed_id id = true -> _extract_model_id (id ++ post) = Some id.
Proof.
  intros Hw. unfold _extract_model_id.
  destruct (match_here re_model_id (id ++ post)) as [[w g]|] eqn:H.
  - rewrite (re_search_here _ _ H).
    apply match_here_sound in H as (rest & Hs & Hm).
    apply pmatch_whole in Hm as [-> Hl]. apply model_id_lang in Hl.
    f_equal. symmetry. eapply app_same_length; [exact Hs|].
    unfold well_formed_id in *. apply fits_length in Hw, Hl.
    rewrite lower_length in Hw, Hl. congruence.
  - exfalso. eapply (@match_here_complete re_model_id (id ++ post) H id id post);
      [reflexivity|].
    apply pmatch_whole. split; [reflexivity|]. now apply model_id_lang.
Qed.

Lemma extract_model_id_prefix_witness :
  well_formed_id (ustr "V2-019A7474-3f2a-7a7d-9282-cc5599095a44") = true
  /\ _extract_model_id (ustr "V2-019A7474-3f2a-7a7d-9282-cc5599095a44" ++ ustr "0/view")
     = Some (ustr "V2-019A7474-3f2a-7a7d-9282-cc5599095a44").
Proof.
  assert (H : well_formed_id (ustr "V2-019A7474-3f2a-7a7d-9282-cc5599095a44") = true)
    by reflexivity.
  exact (conj H (@extract_model_id_prefix _ (ustr "0/view") H)).
Defined.

(* ================================================================= *)
(** ** What counts as a link *)

Lemma span_spec p s a b :
  span p s = (a, b) ->
  s = a ++ b
  /\ Forall (fun c => p c = true) a
  /\ (b = [] \/ exists c b', b = c :: b' /\ p c = false).
Proof.
  revert a b. induction s as [|x s IH]; simpl; intros a b.
  - intros [= <- <-]. auto.
  - destruct (p x) eqn:Hx.
    + destruct (span p s) as [a' b']. intros [= <- <-].
      destruct (IH _ _ eq_refl) as (-> & Hall & Hb). auto.
    + intros [= <- <-]. split; [reflexivity|]. split; [constructor|]. eauto.
Qed.

Lemma after_first_split c s rest :
  after_first c s = Some rest -> s = before_first c s ++ c :: rest.
Proof.
  induction s as [|x s IH]; simpl; [discriminate|].
  destruct (char_eqb x c) eqn:E.
  - intros [= ->]. apply char_eqb_eq in E. now subst.
  - intros H. simpl. f_equal. auto.
Qed.

Lemma startswith_split s p : startswith s p = true -> s = p ++ skipn (length p) s.
Proof.
  revert s. induction p as [|a p IH]; intros s; [reflexivity|].
  destruct s as [|b s]; simpl; [discriminate|].
  intros H. apply andb_prop in H as [E H]. apply char_eqb_eq in E. subst.
  f_equal. auto.
Qed.

(** What [urlsplit] takes for the scheme and the host, when it finds both. *)
Lemma urlsplit_form L s r :
  urlsplit L s = Return r ->
  sr_scheme r <> [] -> sr_netloc r <> [] ->
  exists sch tail,
    cleaned s = sch ++ ustr "://" ++ sr_netloc r ++ tail
    /\ sr_scheme r = lower sch
    /\ Forall (fun c => netloc_delim c = false) (sr_netloc r)
    /\ (tail = [] \/ exists c t, tail = c :: t /\ netloc_delim c = true).
Proof.
  unfold urlsplit. cbv zeta. fold (cleaned s).
  match goal with
  | |- context [let (_, _) := ?x in _] => destruct x as [sch url1] eqn:Hsch
  end.
  intros H Hs Hn.
  assert (Hr : sr_scheme r = sch
               /\ exists tail,
                    url1 = ustr "//" ++ sr_netloc r ++ tail
                    /\ Forall (fun c => netloc_delim c = false) (sr_netloc r)
                    /\ (tail = [] \/ exists c t, tail = c :: t /\ netloc_delim c = true)).
  { revert H. destruct (startswith url1 (ustr "//")) eqn:Hss.
    - apply startswith_split in Hss.
      destruct (span (fun c => negb (netloc_delim c)) (skipn 2 url1))
        as [nl rest] eqn:Hspan.
      apply span_spec in Hspan as (Hsk & Hall & Hrest).
      assert (E : url1 = ustr "//" ++ nl ++ rest) by (rewrite <- Hsk; exact Hss).
      clear Hss Hsk.
      repeat first
        [ progress cbn [obind]
        | match goal with
          | |- context [let (_, _) := ?x in _] => destruct x
          | |- context [if ?b then _ else _] => destruct b
          | |- context [match ?x with Some _ => _ | None => _ end] => destruct x
          end ];
        intros H; try discriminate; injection H as <-; cbn [sr_scheme sr_netloc].
      all: split; [reflexivity|]; exists rest; split;
        [exact E|]; split.
      all: try (eapply Forall_impl; [|exact Hall]; cbv beta; intros c Hc;
                now apply negb_true_iff in Hc).
      all: destruct Hrest as [->|(c & t & -> & Hc)]; [now left|right];
        exists c, t; split; [reflexivity|]; now apply negb_false_iff in Hc.
    - cbn [obind].
      repeat match goal with
             | |- context [let (_, _) := ?x in _] => destruct x
             | |- context [if ?b then _ else _] => destruct b
             end;
        intros H; try discriminate; injection H as <-; cbn [sr_netloc] in Hn;
        contradiction. }
  destruct Hr as (Hsr & tail & Hurl & Hall & Htail).
  rewrite Hsr in *.
  destruct (after_first (ch ":") (cleaned s)) as [rest|] eqn:Ha;
    [|injection Hsch as <- _; contradiction].
  apply after_first_split in Ha.
  destruct (before_first (ch ":") (cleaned s)) as [|c0 pre] eqn:Hb;
    [injection Hsch as <- _; contradiction|].
  destruct (is_ascii_alpha c0 && forallb is_scheme_char (c0 :: pre));
    [|injection Hsch as <- _; contradiction].
  injection Hsch as <- <-.
  exists (c0 :: pre), tail. split; [|auto].
  rewrite Ha, Hurl. reflexivity.
Qed.

(** X18.  What [_is_url] accepts has the form of an absolute HTTP(S)
    link: once leading control characters and spaces are dropped and tabs
    and line breaks removed, the text is a scheme that is [http] or [https]
    in any case of letters, then [://], then a host that is not empty and
    ends at the first [/], [?] or [#] or at the end of the text. *)
Theorem is_url_form L s :
  _is_url L s = true ->
  exists sch host tail,
    cleaned s = sch ++ ustr "://" ++ host ++ tail
    /\ (lower sch = ustr "http" \/ lower sch = ustr "https")
    /\ host <> []
    /\ Forall (fun c => netloc_delim c = false) host
    /\ (tail = [] \/ exists c t, tail = c :: t /\ netloc_delim c = true).
Proof.
  unfold _is_url, urlparse.
  destruct (urlsplit L s) as [r|e] eqn:Hs; cbn [obind try_except]; [|discriminate].
  assert (E : forall pp : str * str,
             (let (p, ps) := pp in
              Return {| scheme := sr_scheme r; netloc := sr_netloc r; path := p;
                        params := ps; query := sr_query r;
                        fragment := sr_fragment r |})
             = Return {| scheme := sr_scheme r; netloc := sr_netloc r; path := fst pp;
                         params := snd pp; query := sr_query r;
                         fragment := sr_fragment r |})
    by (intros [p ps]; reflexivity).
  rewrite E. cbn [obind try_except scheme netloc]. intros H.
  apply andb_prop in H as [Hsch Hnl].
  assert (Hsch' : sr_scheme r = ustr "http" \/ sr_scheme r = ustr "https").
  { apply orb_true_iff in Hsch as [H|H]; apply str_eqb_eq in H; auto. }
  destruct (@urlsplit_form L s r Hs) as (sch & tail & Hc & Hl & Hall & Htail).
  - destruct Hsch' as [->| ->]; discriminate.
  - destruct (sr_netloc r); [discriminate|discriminate].
  - exists sch, (sr_netloc r), tail. rewrite <- Hl.
    repeat split; auto. destruct (sr_netloc r); [discriminate|discriminate].
Qed.

Lemma is_url_form_witness :
  _is_url example_lib shouting_url = true
  /\ exists sch host tail,
       cleaned shouting_url = sch ++ ustr "://" ++ host ++ tail
       /\ (lower sch = ustr "http" \/ lower sch = ustr "https")
       /\ host <> []
       /\ Forall (fun c => netloc_delim c = false) host
       /\ (tail = [] \/ exists c t, tail = c :: t /\ netloc_delim c = true).
Proof.
  assert (H : _is_url example_lib shouting_url = true) by (vm_compute; reflexivity).
  exact (conj H (@is_url_form example_lib shouting_url H)).
Defined.

Lemma lower_letter_alpha c :
  in_range "a" "z" (lower_char c) = true -> is_ascii_alpha c = true.
Proof.
  unfold is_ascii_alpha. destruct (lower_char_cases c) as [->|H].
  - intros ->. reflexivity.
  - intros _. unfold is_upper_ascii in H. unfold in_range at 2.
    change (ch "A") with 0x41%N. change (ch "Z") with 0x5A%N.
    rewrite H. apply orb_true_r.
Qed.

Lemma alpha_scheme_char c :
  is_ascii_alpha c = true -> is_scheme_char c = true /\ char_eqb c (ch ":") = false.
Proof.
  intros H. unfold is_scheme_char. rewrite H. split; [reflexivity|].
  destruct (char_eqb c (ch ":")) eqn:E; [|reflexivity].
  apply char_eqb_eq in E. subst c. discriminate.
Qed.

(** A scheme that is [http] or [https] in any case of letters is made of
    letters. *)
Lemma http_scheme_letters sch :
  lower sch = ustr "http" \/ lower sch = ustr "https" ->
  sch <> [] /\ Forall (fun c => is_ascii_alpha c = true) sch.
Proof.
  intros H.
  assert (Hall : Forall (fun y => in_range "a" "z" y = true) (lower sch))
    by (destruct H as [-> | ->]; repeat constructor).
  split.
  - intros ->. destruct H; discriminate.
  - unfold lower in Hall. rewrite Forall_map in Hall.
    eapply Forall_impl; [|exact Hall]. apply lower_letter_alpha.
Qed.

Lemma first_split c a b :
  Forall (fun x => char_eqb x c = false) a ->
  after_first c (a ++ c :: b) = Some b /\ before_first c (a ++ c :: b) = a.
Proof.
  induction 1 as [|x a Hx _ [IH1 IH2]]; simpl.
  - now rewrite char_eqb_refl.
  - rewrite Hx, IH1, IH2. auto.
Qed.

Lemma span_app p host tail :
  Forall (fun c => p c = true) host ->
  (tail = [] \/ exists c t, tail = c :: t /\ p c = false) ->
  span p (host ++ tail) = (host, tail).
Proof.
  intros Hh Ht. induction Hh as [|x host Hx _ IH]; simpl.
  - destruct Ht as [->|(c & t & -> & Hc)]; [reflexivity|]. simpl. now rewrite Hc.
  - now rewrite Hx, IH.
Qed.

Lemma plain_host_facts host :
  Forall (fun c => plain_host_char c = true) host ->
  Forall (fun c => negb (netloc_delim c) = true) host
  /\ contains (ch "[") host = false /\ contains (ch "]") host = false
  /\ is_ascii host = true.
Proof.
  induction 1 as [|c host Hc _ (IH1 & IH2 & IH3 & IH4)]; [repeat split; constructor|].
  unfold plain_host_char, is_char in Hc.
  apply andb_prop in Hc as [Hc Hb]. apply andb_prop in Hc as [Hd Ha].
  apply negb_true_iff in Hb. apply orb_false_iff in Hb as [Hb1 Hb2].
  unfold char_eqb in Hb1, Hb2. rewrite N.eqb_sym in Hb1, Hb2.
  unfold contains in *. unfold is_ascii in *. cbn [existsb forallb].
  unfold char_eqb at 1 3. rewrite Hb1, Hb2, Ha, IH2, IH3, IH4.
  repeat split. constructor; assumption.
Qed.

Lemma urlsplit_plain L s sch host tail :
  cleaned s = sch ++ ustr "://" ++ host ++ tail ->
  lower sch = ustr "http" \/ lower sch = ustr "https" ->
  Forall (fun c => plain_host_char c = true) host ->
  (tail = [] \/ exists c t, tail = c :: t /\ netloc_delim c = true) ->
  exists r, urlsplit L s = Return r /\ sr_scheme r = lower sch /\ sr_netloc r = host.
Proof.
  intros Hc Hsch Hhost Htail.
  destruct (@http_scheme_letters sch Hsch) as [Hne Hletters].
  destruct (@plain_host_facts host Hhost) as (Hnd & Hlb & Hrb & Hascii).
  assert (Hcolon : Forall (fun x => char_eqb x (ch ":") = false) sch).
  { eapply Forall_impl; [|exact Hletters]. cbv beta. intros c Hcc.
    now apply alpha_scheme_char. }
  assert (Hschars : forallb is_scheme_char sch = true).
  { apply forallb_forall. rewrite Forall_forall in Hletters.
    intros c Hin. now apply alpha_scheme_char, Hletters. }
  destruct (@first_split (ch ":") sch (ustr "//" ++ host ++ tail) Hcolon) as [Ha Hb].
  unfold urlsplit. cbv zeta. fold (cleaned s). rewrite Hc.
  change (sch ++ ustr "://" ++ host ++ tail)
    with (sch ++ ch ":" :: ustr "//" ++ host ++ tail).
  rewrite Ha, Hb.
  destruct sch as [|c0 pre]; [contradiction|].
  inversion Hletters as [|? ? Hc0 _]; subst. rewrite Hc0, Hschars.
  cbn [andb startswith ustr list_ascii_of_string map app].
  rewrite !char_eqb_refl.
  assert (Hsw : forall x p, p = [] -> startswith x p = true)
    by (intros [|? ?] p ->; reflexivity).
  rewrite Hsw by reflexivity.
  cbn [andb skipn].
  rewrite (@span_app (fun c => negb (netloc_delim c)) host tail Hnd).
  2:{ destruct Htail as [->|(c & t & -> & Hd)]; [now left|right].
      exists c, t. now rewrite Hd. }
  rewrite Hlb, Hrb. cbn [andb orb negb obind].
  repeat match goal with
         | |- context [let (_, _) := ?x in _] => destruct x
         end.
  rewrite Hascii. cbn [andb negb].
  eexists. repeat split.
Qed.

(** X19.  Every plain HTTP(S) link is accepted: a text that, once leading
    control characters and spaces are dropped and tabs and line breaks
    removed, is [http] or [https] in any case of letters, then [://], then
    a host of ASCII characters without brackets that is not empty and ends
    at the first [/], [?] or [#] or at the end of the text. *)
Theorem is_url_accepts L s sch host tail :
  cleaned s = sch ++ ustr "://" ++ host ++ tail ->
  lower sch = ustr "http" \/ lower sch = ustr "https" ->
  host <> [] ->
  Forall (fun c => plain_host_char c = true) host ->
  (tail = [] \/ exists c t, tail = c :: t /\ netloc_delim c = true) ->
  _is_url L s = true.
Proof.
  intros Hc Hsch Hne Hhost Htail.
  destruct (@urlsplit_plain L s sch host tail Hc Hsch Hhost Htail)
    as (r & Hr & Hs & Hn).
  unfold _is_url, urlparse. rewrite Hr. cbn [obind].
  match goal with
  | |- context [let (_, _) := ?x in _] => destruct x
  end.
  cbn [obind try_except scheme netloc]. rewrite Hs, Hn.
  destruct host; [contradiction|]. cbn [nonempty]. rewrite andb_true_r.
  destruct Hsch as [-> | ->]; reflexivity.
Qed.

Lemma is_url_accepts_witness :
  _is_url example_lib shouting_url = true.
Proof.
  apply (@is_url_accepts example_lib shouting_url (ustr "HTTPS") (ustr "A.B")
           (ustr "/dir/Model.GLB?x=1")).
  - reflexivity.
  - right. reflexivity.
  - discriminate.
  - repeat constructor.
  - right. eexists. eexists. split; reflexivity.
Defined.

(* ================================================================= *)
(** ** The log announces every request *)

Lemma announced_nil : announced [].
Proof. intros [|? ?] ? ? H; discriminate. Qed.

Lemma announced_log msg : announced [EvLog msg].
Proof. intros [|? [|? ?]] ? ? H; discriminate. Qed.

Lemma announced_app a b : announced a -> announced b -> announced (a ++ b).
Proof.
  intros Ha Hb pre url post H.
  apply app_eq_app in H as [l [[-> Hl]|[-> Hl]]].
  - destruct l as [|x l].
    + simpl in Hl. symmetry in Hl.
      destruct (Hb [] url post Hl) as [pre' Hp]. now destruct pre'.
    + injection Hl as <- ->. eapply Ha. reflexivity.
  - destruct (Hb l url post Hl) as [pre' ->].
    exists (a ++ pre'). now rewrite app_assoc.
Qed.

Section Announce.

Variable L : PyLib.
Variable net : network.

Lemma an_silent A (m : M A) : (forall tr, fst (m tr) = tr) -> announces m.
Proof.
  intros H tr0 tr o E. exists []. pose proof (H tr0) as H0. rewrite E in H0.
  simpl in H0. subst tr. split; [now rewrite app_nil_r | apply announced_nil].
Qed.

Lemma an_bind A B (m : M A) (f : A -> M B) :
  announces m -> (forall a, announces (f a)) -> announces (bind m f).
Proof.
  intros Hm Hf tr0 tr o. unfold bind.
  destruct (m tr0) as [tr1 [a|e1]] eqn:Em.
  - intros Ef. destruct (Hm _ _ _ Em) as (evs1 & -> & H1).
    destruct (Hf a _ _ _ Ef) as (evs2 & -> & H2).
    exists (evs1 ++ evs2). split; [now rewrite app_assoc | now apply announced_app].
  - intros [= <- <-]. exact (Hm _ _ _ Em).
Qed.

Lemma an_return_normalized found : announces (return_normalized L found).
Proof.
  intros tr0 tr o H.
  destruct (return_normalized_spec L found tr0) as (norm & _ & E).
  rewrite E in H. injection H as <- _. exists (norm_log found norm).
  split; [reflexivity|]. unfold norm_log.
  destruct (negb (str_eqb norm found)); [apply announced_log | apply announced_nil].
Qed.

Lemma announced_fetch_events url : announced (fetch_events url).
Proof.
  unfold fetch_events. intros [|x [|y pre]] u post H.
  - discriminate.
  - simpl in H. injection H as <- <- <-. exists []. reflexivity.
  - simpl in H. injection H as _ _ H. destruct pre; discriminate.
Qed.

Lemma an_scan url : announces (scan_page_for_glb L net url).
Proof.
  assert (Hj : forall base u,
             announces (bind (lift (urljoin L base u)) (return_normalized L))).
  { intros base u. apply an_bind; [now apply an_silent|].
    intros; apply an_return_normalized. }
  intros tr0 tr o H. unfold scan_page_for_glb in H.
  unfold bind at 1, log in H. unfold bind at 1, fetch in H.
  destruct (net (length (gets (tr0 ++ [EvLog (msg_fetching url)]))) url) as [r|e].
  - assert (Hk : exists evs,
               tr = ((tr0 ++ [EvLog (msg_fetching url)]) ++ [EvGet url]) ++ evs
               /\ announced evs).
    { revert H.
      destruct (re_findall re_absolute (r_text r)); [|apply an_return_normalized].
      destruct (re_findall re_root_relative (r_text r)); [|apply Hj].
      destruct (re_findall re_attribute (r_text r)); [|apply Hj].
      now apply an_silent. }
    destruct Hk as (evs & -> & Hevs). exists (fetch_events url ++ evs). split.
    + unfold fetch_events. now rewrite <- !app_assoc.
    + apply announced_app; [apply announced_fetch_events | exact Hevs].
  - injection H as <- _. exists (fetch_events url). split.
    + unfold fetch_events. now rewrite <- app_assoc.
    + apply announced_fetch_events.
Qed.

Lemma an_resolved u : announces (resolved L u).
Proof.
  apply an_silent. intros tr. rewrite resolved_run. reflexivity.
Qed.

End Announce.

(** X20.  The log announces every request: in the events of a
    resolution, each request comes right after the log line that says
    which page is being fetched. *)
Theorem requests_are_announced L net input tr0 tr o pre url post :
  resolve_to_glb_url L net input tr0 = (tr, o) ->
  tr = tr0 ++ pre ++ EvGet url :: post ->
  exists pre', pre = pre' ++ [EvLog (msg_fetching url)].
Proof.
  assert (Hres : announces (resolve_to_glb_url L net input)).
  { unfold resolve_to_glb_url.
    destruct (is_direct_glb L (strip input)); [apply an_resolved|].
    apply an_bind.
    - destruct (_is_url L (strip input)); [apply an_scan | now apply an_silent].
    - intros found. destruct (truthy found); [apply an_resolved|].
      destruct (_extract_model_id (strip input)); [|now apply an_silent].
      apply an_bind; [apply an_scan|]. intros found'.
      destruct (truthy found'); [apply an_resolved | now apply an_silent]. }
  intros H Htr. destruct (Hres _ _ _ H) as (evs & -> & Hevs).
  apply app_inv_head in Htr. eapply Hevs. exact Htr.
Qed.

Lemma requests_are_announced_witness :
  resolve_to_glb_url example_lib net_blank page_input []
    = ([] ++ (fetch_events page_input ++ [EvLog (msg_fetching page_input)])
          ++ EvGet page_input :: [],
       Raise (ValueError guidance))
  /\ exists pre',
       fetch_events page_input ++ [EvLog (msg_fetching page_input)]
       = pre' ++ [EvLog (msg_fetching page_input)].
Proof.
  assert (H : resolve_to_glb_url example_lib net_blank page_input []
              = ([] ++ (fetch_events page_input ++ [EvLog (msg_fetching page_input)])
                    ++ EvGet page_input :: [],
                 Raise (ValueError guidance)))
    by (vm_compute; reflexivity).
  exact (conj H (@requests_are_announced example_lib net_blank page_input [] _ _
                   _ _ _ H eq_refl)).
Defined.
